(** * Word counting with a producer thread and a worker thread (main.cxx)

    The program reads whitespace-delimited words from standard input in the
    main thread, hands each one to a worker thread through the single shared
    variable [s_word] (guarded by [s_mutex]), lets the worker count it in the
    ordered map [s_wordsMap], and, once the worker has been joined, prints the
    map and answers lookup queries read from the same input.

    The embedding follows the source function by function:
    - [Int]            the 32-bit [int] of [count] and [s_totalFound];
    - [WordsMap]       [std::map<std::string, wordCount>] as a key-ordered list;
    - [Stdio]          [scanf("%s", lineBuf)] into [char lineBuf[32]];
    - [Ingest]         [worker_thread] and [read_input_words] as two threads
                       whose atomic steps a scheduler interleaves;
    - [Lookup]         [lookup_words] and the sequential tail of [main]. *)

From Stdlib Require Import List String Ascii ZArith Bool Lia Sorted.
Import ListNotations.

#[local] Open Scope string_scope.
#[local] Open Scope list_scope.

(** ** The [int] type *)

Module Int.

Definition INT_MAX : Z := 2147483647.
Definition INT_MIN : Z := -2147483648.

(** The value a 32-bit two's-complement register holds for [z].  Signed
    overflow is undefined in C++; the model takes the wrapped value, and the
    theorems about counts say when no overflow happens. *)
Definition wrap (z : Z) : Z := ((z + 2 ^ 31) mod 2 ^ 32 - 2 ^ 31)%Z.

Definition add (a b : Z) : Z := wrap (a + b).

(** [++x] and [x += 1]. *)
Definition incr (a : Z) : Z := add a 1.

End Int.

(** ** The two structs *)

(** The C string that starts at the first byte of [bytes]: the bytes before
    the first NUL.  It is what [strcmp], the [std::string] constructor and
    [printf("%s")] see of a buffer. *)
Fixpoint c_str (bytes : string) : string :=
  match bytes with
  | EmptyString => EmptyString
  | String c bytes' =>
      if Ascii.eqb c Ascii.zero then EmptyString else String c (c_str bytes')
  end.

(** [struct Word { std::string data; }]: [Word()] leaves [data] empty,
    the constructor from a buffer copies the C string in it, so [data]
    never holds a NUL byte. *)
Record Word : Type := mkWord { data : string }.

Definition Word_default : Word := mkWord "".
Definition Word_of (lineBuf : string) : Word := mkWord (c_str lineBuf).

(** [struct wordCount { int count; }] with [wordCount() : count(0)]. *)
Record wordCount : Type := mkWordCount { count : Z }.

Definition wordCount_default : wordCount := mkWordCount 0.

(** [std::string::empty]. *)
Definition empty (s : string) : bool :=
  match s with
  | EmptyString => true
  | String _ _ => false
  end.

(** [std::strcmp(s, "end") == 0] for a C string [s]: the [c_str] of a
    buffer, or the [data] of a [Word]. *)
Definition is_end (s : string) : bool := String.eqb s "end".

(** ** [std::map<std::string, wordCount>] *)

Module WordsMap.

(** The map is the list of its entries in iteration order, which for
    [std::map] with [std::less<std::string>] is ascending [String.compare]
    order (bytes compared as unsigned values, a proper prefix first). *)
Definition t : Type := list (string * wordCount).

Definition empty_map : t := [].

(** [m[k]] followed by an update [f] of the entry it refers to: the entry of
    [k] when there is one, otherwise a value-initialised [wordCount]
    inserted at [k]'s place in the order. *)
Fixpoint subscript (k : string) (f : wordCount -> wordCount) (m : t) : t :=
  match m with
  | [] => [(k, f wordCount_default)]
  | (k', v) :: m' =>
      match String.compare k k' with
      | Lt => (k, f wordCount_default) :: (k', v) :: m'
      | Eq => (k', f v) :: m'
      | Gt => (k', v) :: subscript k f m'
      end
  end.

(** [m.find(k)]: the entry with key [k], or [None] for [m.end()]. *)
Fixpoint find (k : string) (m : t) : option (string * wordCount) :=
  match m with
  | [] => None
  | (k', v) :: m' => if String.eqb k k' then Some (k', v) else find k m'
  end.

(** [for (i = m.begin(); i != m.end(); i++)]: the pairs [(i->first,
    i->second.count)] in iteration order. *)
Definition iterate (m : t) : list (string * Z) :=
  map (fun e => (fst e, count (snd e))) m.

Definition keys (m : t) : list string := map fst m.

(** Strictly ascending keys: the order and uniqueness [std::map] keeps. *)
Definition lt (a b : string) : Prop := String.compare a b = Lt.
Definition ordered (m : t) : Prop := StronglySorted lt (keys m).

End WordsMap.

(** ** [scanf("%s", lineBuf)] with [char lineBuf[32]] *)

Module Stdio.

Definition LINEBUF_SIZE : nat := 32.

(** Standard input is the list of the whitespace-delimited tokens still to
    be read; each [scanf("%s")] consumes the first one.  A token is any run
    of bytes without white space, so it can hold NUL bytes; the program reads
    the buffer as a C string, which ends at the first of them.  The tokens
    [scanf] delivers are never empty; the definitions below do not rely on
    it, and a theorem that needs it says so. *)
Definition stream : Type := list string.

(** What [%s] stores for a token: its characters, then a terminating NUL.
    There is no field width in the format, so nothing bounds the list. *)
Definition stored (tok : string) : list ascii :=
  list_ascii_of_string tok ++ [Ascii.zero].

(** The stores as (offset into [lineBuf], byte). *)
Definition stores (tok : string) : list (nat * ascii) :=
  combine (seq 0 (List.length (stored tok))) (stored tok).

Definition in_bounds (st : nat * ascii) : bool := Nat.ltb (fst st) LINEBUF_SIZE.

Definition fits (tok : string) : bool := forallb in_bounds (stores tok).

Inductive scanned : Type :=
| ScanEOF                       (* the call returned EOF *)
| ScanOk (lineBuf : string)     (* one item converted: the bytes stored in
                                   [lineBuf] before the terminating NUL *)
| ScanOverrun (tok : string).   (* stores past [lineBuf + 31]: undefined *)

Definition scanf (input : stream) : scanned * stream :=
  match input with
  | [] => (ScanEOF, [])
  | tok :: rest =>
      if fits tok then (ScanOk tok, rest) else (ScanOverrun tok, rest)
  end.

(** A token of 32 characters, one more than [lineBuf] has room for. *)
Definition long_token : string := "aaaaaaaaaaaaaaaaaaaaaaaaaaaaaaaa".

(** The token [a<NUL>b]: as a C string it is ["a"]. *)
Definition a_nul_b : string := String "a" (String Ascii.zero "b").

(** The token [end<NUL>x]: as a C string it is ["end"]. *)
Definition end_nul_x : string :=
  String "e" (String "n" (String "d" (String Ascii.zero "x"))).

End Stdio.

(** ** The globals *)

Record globals : Type := mkGlobals {
  s_wordsMap : WordsMap.t;
  s_word : Word;
  s_totalFound : Z
}.

Definition globals_init : globals :=
  mkGlobals WordsMap.empty_map Word_default 0.

(** ** Ingestion: [read_input_words] and [worker_thread] *)

Module Ingest.

Inductive thread : Type := Main | Worker.

(** Where [read_input_words] stands. *)
Inductive main_loc : Type :=
| MSpawn       (* before [std::thread worker(worker_thread)] *)
| MScan        (* loop head passed, before [scanf] *)
| MPut         (* before the block that assigns [s_word] *)
| MWait        (* in [s_conditionVariable.wait] *)
| MJoin        (* loop left, in [worker.join()] *)
| MReturned    (* returned after the join *)
| MTerminate   (* [return] at EOF: [worker] is destroyed while joinable,
                  which calls [std::terminate] *)
| MUndefined.  (* [scanf] overran [lineBuf] *)

(** Where [worker_thread] stands. *)
Inductive worker_loc : Type :=
| WUnborn      (* the thread does not exist yet *)
| WLock        (* loop head passed, before the locked swap *)
| WBody        (* after the swap, before [if (!w.data.empty())] *)
| WExit.       (* loop left, thread finished *)

Record state : Type := mkState {
  G : globals;
  stdin : Stdio.stream;
  (* locals of [read_input_words] *)
  main_at : main_loc;
  lineBuf : string;   (* the bytes [scanf] stored before its NUL *)
  main_endEncountered : bool;
  (* locals of [worker_thread] *)
  worker_at : worker_loc;
  w : Word;
  worker_endEncountered : bool;
  (* history, read by no step: the [data] of every value assigned to
     [s_word] by the main thread and of every value the worker's swap moved
     into [w], in order *)
  puts : list string;
  takes : list string
}.

Definition init (input : Stdio.stream) : state :=
  mkState globals_init input MSpawn "" false WUnborn Word_default false [] [].

(** The process is gone after [std::terminate]; after an overrun nothing is
    known about it. *)
Definition running (s : state) : bool :=
  match main_at s with
  | MTerminate | MUndefined => false
  | _ => true
  end.

(** One atomic step of [read_input_words].  The blocks under [s_mutex] are
    single steps; [wait(ulock, pred)] can only return when [pred] holds and
    [join] only when the worker has finished. *)
Definition read_input_words (s : state) : option state :=
  let '(mkState g inp at_ buf e wat w_ we ps ts) := s in
  match at_ with
  | MSpawn =>
      Some (mkState g inp MScan buf e WLock w_ we ps ts)
  | MScan =>
      match Stdio.scanf inp with
      | (Stdio.ScanEOF, inp') =>
          Some (mkState g inp' MTerminate buf e wat w_ we ps ts)
      | (Stdio.ScanOverrun _, inp') =>
          Some (mkState g inp' MUndefined buf e wat w_ we ps ts)
      | (Stdio.ScanOk buf', inp') =>
          Some (mkState g inp' MPut buf' (is_end (c_str buf')) wat w_ we
                  ps ts)
      end
  | MPut =>
      let g' := mkGlobals (s_wordsMap g) (Word_of buf) (s_totalFound g) in
      Some (mkState g' inp MWait buf e wat w_ we
              (ps ++ [data (Word_of buf)]) ts)
  | MWait =>
      if empty (data (s_word g))
      then Some (mkState g inp (if e then MJoin else MScan) buf e
                   wat w_ we ps ts)
      else None
  | MJoin =>
      match wat with
      | WExit => Some (mkState g inp MReturned buf e wat w_ we ps ts)
      | _ => None
      end
  | MReturned | MTerminate | MUndefined => None
  end.

(** The statements of the worker's loop body after the locked block.  The
    [data] of a [Word] holds no NUL byte ([words_are_c_strings] below), so
    the [strcmp] on [w.data.c_str()] compares the whole of [w.data]. *)
Definition worker_thread_body (m : WordsMap.t) (wd : Word) (e : bool)
  : WordsMap.t * bool :=
  if negb (empty (data wd)) then
    let e' := is_end (data wd) in
    if negb e'
    then (WordsMap.subscript (data wd)
            (fun got => mkWordCount (Int.add (count got) 1)) m, e')
    else (m, e')
  else (m, e).

(** One atomic step of [worker_thread]: the locked swap of a fresh [Word]
    with [s_word], or the rest of the loop body with the loop test. *)
Definition worker_thread (s : state) : option state :=
  if running s then
    let '(mkState g inp at_ buf e wat w_ we ps ts) := s in
    match wat with
    | WUnborn | WExit => None
    | WLock =>
        let g' := mkGlobals (s_wordsMap g) Word_default (s_totalFound g) in
        Some (mkState g' inp at_ buf e WBody (s_word g) we ps
                (ts ++ [data (s_word g)]))
    | WBody =>
        let '(m', we') := worker_thread_body (s_wordsMap g) w_ we in
        let g' := mkGlobals m' (s_word g) (s_totalFound g) in
        Some (mkState g' inp at_ buf e (if we' then WExit else WLock)
                w_ we' ps ts)
    end
  else None.

Definition step (t : thread) (s : state) : option state :=
  match t with
  | Main => read_input_words s
  | Worker => worker_thread s
  end.

(** The run a schedule produces; [None] when it picks a thread that cannot
    move. *)
Fixpoint run (sched : list thread) (s : state) : option state :=
  match sched with
  | [] => Some s
  | t :: sched' =>
      match step t s with
      | Some s' => run sched' s'
      | None => None
      end
  end.

Definition reachable (input : Stdio.stream) (s : state) : Prop :=
  exists sched, run sched (init input) = Some s.

(** The tokens among the values of a history: a token is a non-empty
    string, the empty [Word] means that nothing is there. *)
Definition tokens (l : list string) : list string :=
  filter (fun x => negb (empty x)) l.

(** The token waiting in [s_word], if any. *)
Definition pending (s : state) : list string := tokens [data (s_word (G s))].

(** *** What a run is expected to compute *)

(** The map after the worker's loop body has seen the value [x]. *)
Definition count_token (m : WordsMap.t) (x : string) : WordsMap.t :=
  fst (worker_thread_body m (mkWord x) false).

(** The map after the loop body has seen the values of [l], from [m]. *)
Definition tally_from (m : WordsMap.t) (l : list string) : WordsMap.t :=
  fold_left count_token l m.

Definition tally (l : list string) : WordsMap.t :=
  tally_from WordsMap.empty_map l.

(** The words of an input: its tokens as the program reads them, each cut
    at its first NUL byte. *)
Definition words (input : Stdio.stream) : list string := map c_str input.

(** The words of the input before the first token that reads ["end"], and
    the tokens that follow that token. *)
Fixpoint before_end (input : Stdio.stream) : list string :=
  match input with
  | [] => []
  | x :: input' =>
      if is_end (c_str x) then [] else c_str x :: before_end input'
  end.

Fixpoint after_end (input : Stdio.stream) : Stdio.stream :=
  match input with
  | [] => []
  | x :: input' => if is_end (c_str x) then input' else after_end input'
  end.

(** A schedule that lets the two threads alternate, token by token: the
    main thread scans and puts, the worker swaps and counts, the main
    thread's wait returns; after ["end"] the main thread joins. *)
Fixpoint rounds (input : Stdio.stream) : list thread :=
  match input with
  | [] => [Main]
  | x :: input' =>
      if Stdio.fits x then
        if is_end (c_str x)
        then [Main; Main; Worker; Worker; Main; Main]
        else [Main; Main; Worker; Worker; Main] ++ rounds input'
      else [Main]
  end.

Definition alternate (input : Stdio.stream) : list thread :=
  Main :: rounds input.

Definition not_end (x : string) : Prop := is_end x = false.

(** *** The invariant of the two threads

    [handoff]: the tokens put are the tokens taken, followed by the one
    waiting in [s_word].  [at_main] and [at_worker] say, location by
    location, how far the input has been read (the values put are the words
    of the tokens [read]), which values of the histories can be ["end"], and
    that the map counts the values whose loop body has run. *)
Definition at_main (input : Stdio.stream) (s : state) : Prop :=
  exists read,
    puts s = words read
    /\ match main_at s with
       | MSpawn => s = init input
       | MScan =>
           data (s_word (G s)) = "" /\ read ++ stdin s = input
           /\ Forall not_end (puts s)
       | MPut =>
           data (s_word (G s)) = "" /\ read ++ lineBuf s :: stdin s = input
           /\ Forall not_end (puts s)
           /\ main_endEncountered s = is_end (c_str (lineBuf s))
       | MWait =>
           read ++ stdin s = input
           /\ main_endEncountered s = is_end (c_str (lineBuf s))
           /\ exists ps,
                puts s = ps ++ [c_str (lineBuf s)] /\ Forall not_end ps
       | MJoin =>
           data (s_word (G s)) = "" /\ read ++ stdin s = input
           /\ exists ps, puts s = ps ++ ["end"] /\ Forall not_end ps
       | MReturned =>
           data (s_word (G s)) = "" /\ read ++ stdin s = input
           /\ worker_at s = WExit
           /\ exists ps, puts s = ps ++ ["end"] /\ Forall not_end ps
       | MTerminate =>
           data (s_word (G s)) = "" /\ read = input /\ stdin s = []
           /\ Forall not_end (puts s)
       | MUndefined =>
           data (s_word (G s)) = "" /\ Forall not_end (puts s)
           /\ exists tok, Stdio.fits tok = false
                          /\ read ++ tok :: stdin s = input
       end.

Definition at_worker (s : state) : Prop :=
  match worker_at s with
  | WUnborn => main_at s = MSpawn
  | WLock =>
      Forall not_end (takes s) /\ s_wordsMap (G s) = tally (takes s)
      /\ worker_endEncountered s = false
  | WBody =>
      worker_endEncountered s = false
      /\ exists ts, takes s = ts ++ [data (w s)] /\ Forall not_end ts
                    /\ s_wordsMap (G s) = tally ts
  | WExit =>
      exists ts, takes s = ts ++ ["end"] /\ Forall not_end ts
                 /\ s_wordsMap (G s) = tally ts
  end.

Record inv (input : Stdio.stream) (s : state) : Prop := mkInv {
  handoff : tokens (puts s) = tokens (takes s) ++ pending s;
  main_ok : at_main input s;
  worker_ok : at_worker s;
  untouched : s_totalFound (G s) = 0%Z
}.




(** What [s_word] and the worker's [w] hold are C strings: no NUL byte. *)
Definition c_strings (s : state) : Prop :=
  c_str (data (s_word (G s))) = data (s_word (G s))
  /\ c_str (data (w s)) = data (w s).

(** How often [k] occurs in [l]. *)
Definition occurrences (k : string) (l : list string) : nat :=
  count_occ string_dec l k.

(** How [read_input_words] ends on an input when every wait and the join
    are answered: it returns after the first token that reads ["end"], it is
    terminated at the end of an input without one, or its [scanf]
    overruns. *)
Fixpoint outcome (input : Stdio.stream) : main_loc :=
  match input with
  | [] => MTerminate
  | x :: input' =>
      if Stdio.fits x then
        if is_end (c_str x) then MReturned else outcome input'
      else MUndefined
  end.

(** The ending that the state of the main thread and the unread input
    announce. *)
Definition heading (s : state) : main_loc :=
  match main_at s with
  | MSpawn | MScan => outcome (stdin s)
  | MPut | MWait =>
      if main_endEncountered s then MReturned else outcome (stdin s)
  | MJoin | MReturned => MReturned
  | MTerminate => MTerminate
  | MUndefined => MUndefined
  end.

(** No step changes the ending that is announced: it is the one the input
    decides. *)
Definition read_ok (input : Stdio.stream) (s : state) : Prop :=
  heading s = outcome input.

(** [read_input_words] is over: it has returned, the process has been
    terminated, or [scanf] has overrun. *)
Definition finished (s : state) : bool :=
  match main_at s with
  | MReturned | MTerminate | MUndefined => true
  | _ => false
  end.

(** Some continuation of the run from [s] brings [read_input_words] to
    its end. *)
Definition finishes (s : state) : Prop :=
  exists more s', run more s = Some s' /\ finished s' = true.

End Ingest.

(** ** Lookup: [lookup_words] and the rest of [main] *)

Module Lookup.

(** What the program prints, one constructor per [printf]. *)
Inductive output : Type :=
| WordListHeader                   (* "=== Word list:" *)
| WordLine (k : string) (c : Z)    (* "%s %d" *)
| Prompt                           (* "Enter a word for lookup:" *)
| Success (k : string) (c : Z)     (* "SUCCESS: '%s' was present %d times" *)
| NotFound (k : string)            (* "'%s' was NOT found ..." *)
| Total (n : Z).                   (* "=== Total words found: %d" *)

Inductive ending : Type :=
| Returned      (* [scanf] returned EOF and the function returned *)
| Undefined.    (* [scanf] overran [lineBuf] *)

Record result : Type := mkResult {
  after : globals;
  rest : Stdio.stream;
  printed : list output;
  ended : ending
}.

(** The loop body of [lookup_words] once [scanf] has filled [lineBuf]. *)
Definition lookup_body (g : globals) (lineBuf : string) : globals * output :=
  let w := Word_of lineBuf in
  match WordsMap.find (data w) (s_wordsMap g) with
  | Some found =>
      (mkGlobals (s_wordsMap g) (s_word g) (Int.incr (s_totalFound g)),
       Success (fst found) (count (snd found)))
  | None => (g, NotFound (data w))
  end.

(** [lookup_words]: the [for (;;)] loop, one iteration per token of the
    input; [lookup_words_scanf] below states it with [Stdio.scanf]. *)
Fixpoint lookup_words (g : globals) (input : Stdio.stream) : result :=
  match input with
  | [] => mkResult g [] [Prompt] Returned
  | tok :: input' =>
      if Stdio.fits tok then
        let '(g', line) := lookup_body g tok in
        let r := lookup_words g' input' in
        mkResult (after r) (rest r) (Prompt :: line :: printed r) (ended r)
      else mkResult g input' [Prompt] Undefined
  end.

(** The queries a session answers: the tokens up to the first one that
    overruns [lineBuf]. *)
Fixpoint answered (input : Stdio.stream) : list string :=
  match input with
  | [] => []
  | tok :: input' => if Stdio.fits tok then tok :: answered input' else []
  end.

(** Whether a query is a key of the map, and how many of a list are. *)
Definition hit (m : WordsMap.t) (q : string) : bool :=
  match WordsMap.find q m with
  | Some _ => true
  | None => false
  end.

Definition hits (m : WordsMap.t) (queries : list string) : nat :=
  List.length (filter (hit m) queries).

(** [main] from the return of [read_input_words] on. *)
Definition main_tail (g : globals) (input : Stdio.stream) : result :=
  let listing :=
    WordListHeader
      :: map (fun e => WordLine (fst e) (snd e))
           (WordsMap.iterate (s_wordsMap g)) in
  let r := lookup_words g input in
  match ended r with
  | Returned =>
      mkResult (after r) (rest r)
        (listing ++ printed r ++ [Total (s_totalFound (after r))]) Returned
  | Undefined => mkResult (after r) (rest r) (listing ++ printed r) Undefined
  end.

(** The whole of [main] under a schedule of the two threads of the
    ingestion: [None] when the schedule does not bring [read_input_words]
    to its return. *)
Definition main (sched : list Ingest.thread) (input : Stdio.stream)
  : option result :=
  match Ingest.run sched (Ingest.init input) with
  | Some s =>
      match Ingest.main_at s with
      | Ingest.MReturned => Some (main_tail (Ingest.G s) (Ingest.stdin s))
      | _ => None
      end
  | None => None
  end.

(** The lines of a session that report a hit, and how many there are. *)
Definition is_success (o : output) : bool :=
  match o with
  | Success _ _ => true
  | _ => false
  end.

Definition successes (l : list output) : nat :=
  List.length (filter is_success l).

End Lookup.

(** * Strings, tokens and tallies *)

Lemma empty_iff (s : string) : empty s = true <-> s = "".
Proof. destruct s; simpl; split; congruence. Qed.

Lemma empty_false_iff (s : string) : empty s = false <-> s <> "".
Proof. destruct s; simpl; split; congruence. Qed.

Lemma is_end_iff (s : string) : is_end s = true <-> s = "end".
Proof. apply String.eqb_eq. Qed.

Lemma is_end_false_iff (s : string) : is_end s = false <-> s <> "end".
Proof. apply String.eqb_neq. Qed.

Lemma ascii_compare_refl (a : ascii) : Ascii.compare a a = Eq.
Proof. apply N.compare_refl. Qed.

Lemma compare_refl (s : string) : String.compare s s = Eq.
Proof.
  induction s as [|a s IH]; simpl; [reflexivity|].
  now rewrite ascii_compare_refl.
Qed.

Lemma compare_lt_trans (a b c : string) :
  String.compare a b = Lt -> String.compare b c = Lt -> String.compare a c = Lt.
Proof.
  revert b c; induction a as [|x a IH]; intros [|y b] [|z c]; simpl;
    try congruence.
  destruct (Ascii.compare x y) eqn:Hxy; try discriminate;
    destruct (Ascii.compare y z) eqn:Hyz; try discriminate; intros Hab Hbc.
  - apply Ascii.compare_eq_iff in Hxy, Hyz; subst.
    rewrite ascii_compare_refl. eauto.
  - apply Ascii.compare_eq_iff in Hxy; subst. now rewrite Hyz.
  - apply Ascii.compare_eq_iff in Hyz; subst. now rewrite Hxy.
  - unfold Ascii.compare in *. rewrite N.compare_lt_iff in *.
    assert (H : (N_of_ascii x < N_of_ascii z)%N) by lia.
    apply N.compare_lt_iff in H. now rewrite H.
Qed.

Lemma compare_gt_lt (a b : string) :
  String.compare a b = Gt -> String.compare b a = Lt.
Proof. intros H. rewrite String.compare_antisym, H. reflexivity. Qed.

Lemma compare_eq_eqb (a b : string) :
  String.compare a b = Eq <-> String.eqb a b = true.
Proof.
  rewrite String.eqb_eq. split.
  - apply String.compare_eq_iff.
  - intros ->. apply compare_refl.
Qed.

Lemma compare_ne_eqb (a b : string) :
  String.compare a b <> Eq -> String.eqb a b = false.
Proof.
  intros H. destruct (String.eqb a b) eqn:E; [|reflexivity].
  apply compare_eq_eqb in E. contradiction.
Qed.

Section Tokens.

Import Ingest.

Lemma tokens_app (l l' : list string) :
  tokens (l ++ l') = tokens l ++ tokens l'.
Proof. apply filter_app. Qed.

Lemma tokens_one_empty : tokens [""] = [].
Proof. reflexivity. Qed.

Lemma tokens_end : tokens ["end"] = ["end"].
Proof. reflexivity. Qed.

Lemma tokens_length (l : list string) :
  (List.length (tokens l) <= List.length l)%nat.
Proof. apply filter_length_le. Qed.


Lemma count_token_end (m : WordsMap.t) : count_token m "end" = m.
Proof. reflexivity. Qed.

Lemma tally_from_app (m : WordsMap.t) (l l' : list string) :
  tally_from m (l ++ l') = tally_from (tally_from m l) l'.
Proof. apply fold_left_app. Qed.

Lemma tally_snoc (l : list string) (x : string) :
  tally (l ++ [x]) = count_token (tally l) x.
Proof. unfold tally. now rewrite tally_from_app. Qed.

Lemma tally_from_tokens (l : list string) (m : WordsMap.t) :
  tally_from m (tokens l) = tally_from m l.
Proof.
  revert m; induction l as [|x l IH]; intros m; simpl; [reflexivity|].
  destruct x as [|a x]; simpl; [|apply IH].
  rewrite IH. reflexivity.
Qed.

Lemma tally_tokens (l : list string) : tally (tokens l) = tally l.
Proof. apply tally_from_tokens. Qed.

Lemma worker_thread_body_map (m : WordsMap.t) (x : string) (e : bool) :
  fst (worker_thread_body m (mkWord x) e) = count_token m x.
Proof.
  unfold count_token, worker_thread_body; simpl.
  destruct (empty x); simpl; [reflexivity|].
  destruct (is_end x); reflexivity.
Qed.

Lemma worker_thread_body_flag (m : WordsMap.t) (x : string) :
  snd (worker_thread_body m (mkWord x) false) = is_end x.
Proof.
  unfold worker_thread_body; simpl.
  destruct x as [|a x]; simpl; [reflexivity|].
  destruct (is_end (String a x)); reflexivity.
Qed.

Lemma words_app (l l' : Stdio.stream) : words (l ++ l') = words l ++ words l'.
Proof. apply map_app. Qed.

Lemma words_length (l : Stdio.stream) : List.length (words l) = List.length l.
Proof. apply length_map. Qed.

(** The tokens whose words are a list that ends in [x]. *)
Lemma words_snoc (read : Stdio.stream) (ps : list string) (x : string) :
  words read = ps ++ [x] ->
  exists pre tok, read = pre ++ [tok] /\ words pre = ps /\ c_str tok = x.
Proof.
  intros H. apply map_eq_app in H. destruct H as (pre & l & -> & Hp & Hl).
  destruct l as [|tok [|? ?]]; try discriminate.
  injection Hl as Hl. eauto.
Qed.

Lemma before_end_split (pre : Stdio.stream) (tok : string) (rest : Stdio.stream) :
  Forall not_end (words pre) -> is_end (c_str tok) = true ->
  before_end (pre ++ tok :: rest) = words pre
  /\ after_end (pre ++ tok :: rest) = rest.
Proof.
  intros Hn Ht. induction pre as [|x pre IH]; simpl.
  - now rewrite Ht.
  - inversion Hn as [|? ? Hx Hn']; subst. unfold not_end in Hx.
    rewrite Hx. destruct (IH Hn') as [-> ->]. auto.
Qed.

Lemma before_end_none (l : Stdio.stream) :
  Forall not_end (words l) -> before_end l = words l.
Proof.
  induction l as [|x l IH]; simpl; intros Hn; [reflexivity|].
  inversion Hn as [|? ? Hx Hn']; subst. unfold not_end in Hx.
  now rewrite Hx, IH.
Qed.

Lemma before_end_not_end (l : Stdio.stream) : Forall not_end (before_end l).
Proof.
  induction l as [|x l IH]; simpl; [constructor|].
  destruct (is_end (c_str x)) eqn:E; constructor; assumption.
Qed.

End Tokens.

(** * The invariant holds in every reachable state *)

Section Invariant.

Import Ingest.

Variable input : Stdio.stream.

Lemma inv_init : inv input (init input).
Proof.
  split; simpl; try reflexivity. exists []. split; reflexivity.
Qed.

Lemma scanf_cases (inp : Stdio.stream) :
  (inp = [] /\ Stdio.scanf inp = (Stdio.ScanEOF, []))
  \/ (exists tok inp', inp = tok :: inp' /\ Stdio.fits tok = true
                       /\ Stdio.scanf inp = (Stdio.ScanOk tok, inp'))
  \/ (exists tok inp', inp = tok :: inp' /\ Stdio.fits tok = false
                       /\ Stdio.scanf inp = (Stdio.ScanOverrun tok, inp')).
Proof.
  destruct inp as [|tok inp']; [now left|right].
  unfold Stdio.scanf. destruct (Stdio.fits tok) eqn:E; [left|right]; eauto.
Qed.

Ltac build_inv :=
  split; simpl; unfold at_main, at_worker, pending in *; simpl in *; auto.

Ltac keep_worker wat := destruct wat; auto; discriminate.

Lemma inv_read_input_words (s s' : state) :
  inv input s -> read_input_words s = Some s' -> inv input s'.
Proof.
  destruct s as [[m wd tf] inp at_ buf e wat w_ we ps ts].
  intros [Hh (read & Hr & Hm) Hw Ht].
  unfold at_worker, pending in *; simpl in *.
  destruct at_; simpl; intros Hs.
  - (* spawn *)
    inversion Hm; subst. injection Hs as <-.
    build_inv. exists [].
    match goal with H : words read = [] |- _ => rewrite H end.
    repeat split; auto.
  - (* scan *)
    destruct Hm as (Hd & Hi & Hp).
    destruct (scanf_cases inp)
      as [(-> & E)|[(tok & inp' & -> & Hf & E)|(tok & inp' & -> & Hf & E)]];
      rewrite E in Hs; injection Hs as <-; build_inv;
      try (keep_worker wat); exists read; split; auto.
    + rewrite app_nil_r in Hi. auto.
    + eauto 6.
  - (* put *)
    destruct Hm as (Hd & Hi & Hp & He). injection Hs as <-. build_inv.
    + rewrite Hd in Hh; simpl in Hh. rewrite app_nil_r in Hh.
      rewrite tokens_app, Hh. reflexivity.
    + exists (read ++ [buf]). rewrite words_app, Hr, <- app_assoc. simpl.
      repeat split; auto. exists (words read). rewrite <- Hr. auto.
    + keep_worker wat.
  - (* wait *)
    destruct Hm as (Hi & He & ps' & Hp & Hn).
    destruct wd as [[|c d]]; simpl in *; [|discriminate]. injection Hs as <-.
    destruct e; build_inv; try (keep_worker wat); exists read; split; auto.
    + symmetry in He. apply is_end_iff in He. rewrite He in Hp.
      repeat split; auto. exists ps'; auto.
    + repeat split; auto. rewrite Hp. apply Forall_app. split; auto.
      repeat constructor. symmetry. exact He.
  - (* join *)
    destruct Hm as (Hd & Hi & ps' & Hp & Hn).
    destruct wat; try discriminate. injection Hs as <-. build_inv.
    exists read. eauto 7.
  - discriminate.
  - discriminate.
  - discriminate.
Qed.

Lemma inv_worker_thread (s s' : state) :
  inv input s -> worker_thread s = Some s' -> inv input s'.
Proof.
  unfold worker_thread.
  destruct (running s) eqn:Hr; [|discriminate].
  destruct s as [[m wd tf] inp at_ buf e wat w_ we ps ts].
  intros [Hh (read & Hrd & Hm) Hw Ht].
  unfold at_worker, pending in *; simpl in *.
  destruct wat; simpl; intros Hs; try discriminate.
  - (* the locked swap *)
    injection Hs as <-. destruct Hw as (Hn & Hmap & He). build_inv.
    + rewrite tokens_app, app_nil_r. exact Hh.
    + exists read. split; [assumption|].
      destruct at_; simpl in *; try discriminate; intuition; try discriminate.
    + split; [assumption|]. exists ts. auto.
  - (* the rest of the loop body *)
    destruct Hw as (He & ts' & Hts & Hn & Hmap). subst we.
    destruct w_ as [x]; simpl in *.
    pose proof (worker_thread_body_map m x false) as Em.
    pose proof (worker_thread_body_flag m x) as Ef.
    destruct (worker_thread_body m (mkWord x) false) as [m' we']; simpl in *.
    subst m' we'. injection Hs as <-. build_inv.
    + exists read. split; [assumption|].
      destruct at_; simpl in *; try discriminate; intuition; try discriminate.
    + destruct (is_end x) eqn:Ex.
      * apply is_end_iff in Ex. subst x. exists ts'.
        rewrite count_token_end. auto.
      * subst ts m. rewrite tally_snoc. repeat split; auto.
        apply Forall_app. split; auto.
Qed.

Lemma inv_step (t : thread) (s s' : state) :
  inv input s -> step t s = Some s' -> inv input s'.
Proof. destruct t; [apply inv_read_input_words | apply inv_worker_thread]. Qed.

Lemma inv_run (sched : list thread) :
  forall s s', inv input s -> run sched s = Some s' -> inv input s'.
Proof.
  induction sched as [|t sched IH]; simpl; intros s s' Hi Hr.
  - now injection Hr as <-.
  - destruct (step t s) as [s1|] eqn:E; [|discriminate].
    eapply IH; [|exact Hr]. eapply inv_step; eassumption.
Qed.

Lemma inv_reachable (s : state) : reachable input s -> inv input s.
Proof. intros [sched Hr]. eapply inv_run; [apply inv_init | exact Hr]. Qed.

End Invariant.

(** * The ordered map *)

Section Map.

Import WordsMap.

Lemma subscript_keys_Forall (P : string -> Prop) k f m :
  P k -> Forall P (keys m) -> Forall P (keys (subscript k f m)).
Proof.
  intros Hk. induction m as [|[k' v] m IH]; simpl; intros H.
  - repeat constructor. exact Hk.
  - inversion H; subst.
    destruct (String.compare k k'); simpl; constructor; auto.
Qed.

(** [operator[]] keeps the keys strictly ascending. *)
Lemma subscript_ordered k f m : ordered m -> ordered (subscript k f m).
Proof.
  unfold ordered. induction m as [|[k' v] m IH]; simpl; intros H.
  - repeat constructor.
  - apply StronglySorted_inv in H. destruct H as [Hs Hf].
    destruct (String.compare k k') eqn:E; simpl.
    + constructor; assumption.
    + constructor; [constructor; assumption|].
      constructor; [exact E|].
      eapply Forall_impl; [|exact Hf].
      intros a Ha. eapply compare_lt_trans; eassumption.
    + constructor; [apply IH; assumption|].
      apply subscript_keys_Forall; [|assumption].
      apply compare_gt_lt. exact E.
Qed.


Lemma find_key k m e : find k m = Some e -> fst e = k /\ In e m.
Proof.
  induction m as [|[k' v] m IH]; simpl; [discriminate|].
  destruct (String.eqb k k') eqn:E.
  - apply String.eqb_eq in E. subst k'. intros [= <-]. auto.
  - intros H. destruct (IH H). auto.
Qed.

Lemma find_none_iff k m : find k m = None <-> ~ In k (keys m).
Proof.
  induction m as [|[k' v] m IH]; simpl; [tauto|].
  destruct (String.eqb k k') eqn:E.
  - apply String.eqb_eq in E. subst k'. split; [discriminate|tauto].
  - apply String.eqb_neq in E. rewrite IH. split.
    + intros H [H1|H1]; [congruence|tauto].
    + tauto.
Qed.

(** [find] after [m[k]]: the entry of [k] is there with [f] applied, the
    other keys are as before. *)
Lemma find_subscript_same k f m :
  ordered m ->
  find k (subscript k f m)
  = Some (k, f match find k m with
               | Some e => snd e
               | None => wordCount_default
               end).
Proof.
  unfold ordered. induction m as [|[k' v] m IH]; simpl; intros H.
  - now rewrite String.eqb_refl.
  - apply StronglySorted_inv in H. destruct H as [Hs Hf].
    destruct (String.compare k k') eqn:E; simpl.
    + apply String.compare_eq_iff in E. subst k'.
      now rewrite String.eqb_refl.
    + rewrite String.eqb_refl.
      rewrite (compare_ne_eqb k k') by congruence.
      replace (find k m) with (@None (string * wordCount)); [reflexivity|].
      symmetry. apply find_none_iff. intros Hin.
      rewrite Forall_forall in Hf. apply Hf in Hin. unfold lt in Hin.
      pose proof (compare_lt_trans _ _ _ E Hin) as Hkk.
      rewrite compare_refl in Hkk. discriminate.
    + rewrite (compare_ne_eqb k k') by congruence. apply IH. assumption.
Qed.

Lemma find_subscript_other k k0 f m :
  k0 <> k -> find k0 (subscript k f m) = find k0 m.
Proof.
  intros Hne. induction m as [|[k' v] m IH]; simpl.
  - apply String.eqb_neq in Hne. now rewrite Hne.
  - destruct (String.compare k k') eqn:E; simpl.
    + apply String.compare_eq_iff in E. subst k'.
      apply String.eqb_neq in Hne. now rewrite Hne.
    + apply String.eqb_neq in Hne. now rewrite Hne.
    + rewrite IH. reflexivity.
Qed.

End Map.

(** * What the worker's loop body does to the map *)

Section Tally.

Import Ingest.

Lemma wrap_small (z : Z) :
  (Int.INT_MIN <= z <= Int.INT_MAX)%Z -> Int.wrap z = z.
Proof.
  unfold Int.INT_MIN, Int.INT_MAX, Int.wrap. intros H.
  rewrite Z.mod_small; lia.
Qed.

Lemma add_wrap (a b : Z) : Int.add (Int.wrap a) b = Int.wrap (a + b).
Proof.
  unfold Int.add, Int.wrap. f_equal.
  replace ((a + 2 ^ 31) mod 2 ^ 32 - 2 ^ 31 + b + 2 ^ 31)%Z
    with ((a + 2 ^ 31) mod 2 ^ 32 + b)%Z by lia.
  rewrite Zplus_mod_idemp_l. f_equal. lia.
Qed.

Lemma count_token_cases (m : WordsMap.t) (x : string) :
  (x = "" \/ x = "end") /\ count_token m x = m
  \/ x <> "" /\ x <> "end"
     /\ count_token m x
        = WordsMap.subscript x
            (fun got => mkWordCount (Int.add (count got) 1)) m.
Proof.
  unfold count_token, worker_thread_body; simpl.
  destruct (empty x) eqn:E1; simpl.
  - left. apply empty_iff in E1. auto.
  - apply empty_false_iff in E1. destruct (is_end x) eqn:E2; simpl.
    + left. apply is_end_iff in E2. auto.
    + right. apply is_end_false_iff in E2. auto.
Qed.

Lemma count_token_ordered (m : WordsMap.t) (x : string) :
  WordsMap.ordered m -> WordsMap.ordered (count_token m x).
Proof.
  intros H. destruct (count_token_cases m x) as [[_ ->]|(_ & _ & ->)];
    [assumption|]. now apply subscript_ordered.
Qed.

Lemma tally_ordered (l : list string) : WordsMap.ordered (tally l).
Proof.
  induction l as [|x l IH] using rev_ind.
  - constructor.
  - rewrite tally_snoc. now apply count_token_ordered.
Qed.






(** The entry of a word after the values of [l]: absent when the word is
    the empty string, ["end"], or not in [l]; otherwise its number of
    occurrences, as an [int]. *)
Lemma find_tally (l : list string) (k : string) :
  WordsMap.find k (tally l)
  = if empty k || is_end k || (occurrences k l =? 0)%nat
    then None
    else Some (k, mkWordCount (Int.wrap (Z.of_nat (occurrences k l)))).
Proof.
  unfold occurrences.
  induction l as [|x l IH] using rev_ind.
  - simpl. now rewrite !orb_true_r.
  - rewrite tally_snoc, count_occ_app.
    replace (count_occ string_dec [x] k)
      with (if string_dec x k then 1 else 0)%nat
      by (simpl; destruct (string_dec x k); reflexivity).
    destruct (count_token_cases (tally l) x) as [[Hx ->]|(Hx1 & Hx2 & ->)].
    + rewrite IH. destruct (string_dec x k) as [->|Hne].
      * assert (Hk : empty k || is_end k = true).
        { destruct Hx as [->| ->]; reflexivity. }
        rewrite Hk. reflexivity.
      * now rewrite Nat.add_0_r.
    + destruct (string_dec x k) as [->|Hne].
      * rewrite find_subscript_same by apply tally_ordered.
        apply empty_false_iff in Hx1. apply is_end_false_iff in Hx2.
        rewrite IH, Hx1, Hx2. simpl orb.
        replace (count_occ string_dec l k + 1 =? 0)%nat with false
          by (symmetry; apply Nat.eqb_neq; lia).
        do 2 f_equal.
        destruct (count_occ string_dec l k =? 0)%nat eqn:E0; simpl.
        -- apply Nat.eqb_eq in E0. rewrite E0. reflexivity.
        -- rewrite add_wrap. f_equal. f_equal. lia.
      * rewrite find_subscript_other by congruence.
        now rewrite IH, Nat.add_0_r.
Qed.

End Tally.

(** * Runs *)

Section Runs.

Import Ingest.

Lemma run_app (a b : list thread) (s : state) :
  run (a ++ b) s
  = match run a s with
    | Some s' => run b s'
    | None => None
    end.
Proof.
  revert s; induction a as [|t a IH]; intros s; simpl; [reflexivity|].
  destruct (step t s); [apply IH|reflexivity].
Qed.

(** From the head of the main thread's loop, with the worker at the head of
    its own, the alternating schedule brings [read_input_words] to the end
    that [outcome] names. *)
Lemma rounds_run (input : Stdio.stream) :
  forall m tf buf e w_ ps ts,
  exists s',
    run (rounds input)
      (mkState (mkGlobals m Word_default tf) input MScan buf e
         WLock w_ false ps ts) = Some s'
    /\ main_at s' = outcome input.
Proof.
  induction input as [|x input IH]; intros m tf buf e w_ ps ts.
  - eexists; split; reflexivity.
  - cbn [rounds outcome]. destruct (Stdio.fits x) eqn:Hf.
    + destruct (is_end (c_str x)) eqn:He.
      * pose proof He as Hx. apply is_end_iff in Hx.
        cbn -[worker_thread_body Stdio.fits is_end c_str].
        rewrite Hf.
        cbn -[worker_thread_body Stdio.fits is_end c_str].
        unfold Word_of. rewrite He, Hx.
        eexists; split; reflexivity.
      * rewrite run_app.
        cbn -[worker_thread_body Stdio.fits is_end rounds c_str].
        rewrite Hf.
        cbn -[worker_thread_body Stdio.fits is_end rounds c_str].
        rewrite He. unfold Word_of.
        pose proof (worker_thread_body_flag m (c_str x)) as Ef.
        destruct (worker_thread_body m (mkWord (c_str x)) false) as [m' we'].
        simpl in Ef. subst we'. rewrite He.
        cbn -[worker_thread_body Stdio.fits is_end rounds c_str].
        apply IH.
    + cbn -[Stdio.fits]. rewrite Hf. eexists; split; reflexivity.
Qed.

Lemma alternate_run (input : Stdio.stream) :
  exists s,
    run (alternate input) (init input) = Some s
    /\ main_at s = outcome input.
Proof.
  unfold alternate. cbn [run step read_input_words init]. apply rounds_run.
Qed.

End Runs.

(** * Consequences of the invariant *)

Section Consequences.

Import Ingest.

Variable input : Stdio.stream.
Variable s : state.
Hypothesis Hinv : inv input s.

(** The values put are the words of the tokens read so far. *)
Lemma inv_puts_prefix :
  exists read rest, input = read ++ rest /\ puts s = words read.
Proof.
  destruct Hinv as [_ (read & Hr & Hm) _ _].
  destruct (main_at s).
  - subst s. exists [], input. auto.
  - destruct Hm as (_ & <- & _). eauto.
  - destruct Hm as (_ & <- & _). eauto.
  - destruct Hm as (<- & _). eauto.
  - destruct Hm as (_ & <- & _). eauto.
  - destruct Hm as (_ & <- & _). eauto.
  - destruct Hm as (_ & <- & _). exists read, []. now rewrite app_nil_r.
  - destruct Hm as (_ & _ & tok & _ & <-). eauto.
Qed.

Lemma inv_puts_words : exists rest, words input = puts s ++ rest.
Proof.
  destruct inv_puts_prefix as (read & rest & -> & ->).
  exists (words rest). apply words_app.
Qed.

Lemma inv_pending : main_at s <> MWait -> pending s = [].
Proof.
  destruct Hinv as [_ (read & _ & Hm) _ _]. unfold pending in *.
  destruct (main_at s); try (destruct Hm as (-> & _); reflexivity).
  - subst s. reflexivity.
  - congruence.
Qed.

Lemma pending_short : (List.length (pending s) <= 1)%nat.
Proof.
  unfold pending, tokens; simpl.
  destruct (empty (data (s_word (G s)))); simpl; lia.
Qed.

Lemma inv_takes_prefix (n : nat) (t : string) :
  nth_error (tokens (takes s)) n = Some t ->
  nth_error (tokens (puts s)) n = Some t.
Proof.
  destruct Hinv as [-> _ _ _]. intros H.
  rewrite nth_error_app1; [exact H|].
  apply nth_error_Some. congruence.
Qed.

(** After the join the histories agree, end with the first ["end"] among
    the words of the input, and the map counts what came before it. *)
Lemma inv_returned :
  main_at s = MReturned ->
  puts s = before_end input ++ ["end"]
  /\ tokens (takes s) = tokens (puts s)
  /\ (exists pre tok,
        input = pre ++ tok :: stdin s /\ c_str tok = "end"
        /\ words pre = before_end input)
  /\ stdin s = after_end input
  /\ worker_at s = WExit
  /\ G s = mkGlobals (tally (before_end input)) Word_default 0.
Proof.
  intros Hr. pose proof (inv_pending ltac:(congruence)) as Hp.
  destruct Hinv as [Hh (read & Hrd & Hm) Hw Ht]. unfold at_worker in *.
  rewrite Hr in Hm. destruct Hm as (Hd & Hi & Hx & ps & Hps & Hn).
  rewrite Hx in Hw. destruct Hw as (ts & Hts & Hnt & Hmap).
  rewrite Hp, app_nil_r in Hh.
  rewrite Hps in Hrd. symmetry in Hrd.
  destruct (words_snoc _ _ _ Hrd) as (pre & tok & -> & Hpre & Htok).
  assert (Hi' : input = pre ++ tok :: stdin s).
  { rewrite <- Hi, <- app_assoc. reflexivity. }
  rewrite <- Hpre in Hn.
  assert (Hend : is_end (c_str tok) = true) by now rewrite Htok.
  destruct (before_end_split pre tok (stdin s) Hn Hend) as [Hb Ha].
  rewrite <- Hi' in Hb, Ha. rewrite Hb, Ha.
  split; [now rewrite Hps, Hpre|]. split; [now symmetry|].
  split; [exists pre, tok; auto|]. split; [reflexivity|].
  split; [assumption|].
  destruct (G s) as [m wd tf]; simpl in *. destruct wd as [d]; simpl in *.
  subst d tf. unfold Word_default. f_equal.
  rewrite Hmap, <- (tally_tokens ts), <- (tally_tokens (words pre)). f_equal.
  rewrite Hps, Hts, !tokens_app, tokens_end, <- Hpre in Hh.
  apply app_inj_tail in Hh. symmetry. apply Hh.
Qed.

(** The worker leaves its loop, and the main thread its own by the loop
    test, only when a token of the input reads ["end"]. *)
Lemma inv_left_loop :
  worker_at s = WExit \/ main_at s = MJoin \/ main_at s = MReturned ->
  In "end" (words input).
Proof.
  intros H.
  assert (Hp : In "end" (puts s)).
  { destruct Hinv as [Hh (read & _ & Hm) Hw _]. unfold at_worker in *.
    destruct H as [H|[H|H]]; rewrite H in *.
    - destruct Hw as (ts & Hts & _).
      assert (Ht : In "end" (tokens (puts s))).
      { rewrite Hh, Hts, tokens_app, tokens_end.
        apply in_or_app. left. apply in_or_app. right. now left. }
      apply filter_In in Ht. apply Ht.
    - destruct Hm as (_ & _ & ps & -> & _). apply in_or_app. right. now left.
    - destruct Hm as (_ & _ & _ & ps & -> & _).
      apply in_or_app. right. now left. }
  destruct inv_puts_words as [rest ->]. apply in_or_app. now left.
Qed.

(** In every state the map is the tally of some of the words read so
    far. *)
Lemma inv_map_tally :
  exists l, s_wordsMap (G s) = tally l
            /\ (List.length (tokens l) <= List.length input)%nat.
Proof.
  assert (Hlen : (List.length (tokens (takes s)) <= List.length input)%nat).
  { destruct inv_puts_words as [rest Hrest].
    destruct Hinv as [Hh _ _ _].
    assert (H1 : (List.length (tokens (takes s))
                  <= List.length (tokens (puts s)))%nat).
    { rewrite Hh, length_app. lia. }
    pose proof (tokens_length (puts s)) as H2.
    rewrite <- (words_length input), Hrest, length_app. lia. }
  destruct Hinv as [Hh (read & _ & Hm) Hw _]. unfold at_worker in *.
  destruct (worker_at s).
  - rewrite Hw in Hm. subst s. exists []. simpl. split; [reflexivity|lia].
  - destruct Hw as (_ & Hmap & _). eauto.
  - destruct Hw as (_ & ts & Hts & _ & Hmap). exists ts. split; [exact Hmap|].
    rewrite Hts, tokens_app, length_app in Hlen. lia.
  - destruct Hw as (ts & Hts & _ & Hmap). exists ts. split; [exact Hmap|].
    rewrite Hts, tokens_app, length_app in Hlen. lia.
Qed.

End Consequences.

(** * The words are C strings *)

Section CStrings.

Import Ingest.

Lemma c_str_idem (bytes : string) : c_str (c_str bytes) = c_str bytes.
Proof.
  induction bytes as [|c bytes IH]; simpl; [reflexivity|].
  destruct (Ascii.eqb c Ascii.zero) eqn:E; simpl; [reflexivity|].
  now rewrite E, IH.
Qed.

Lemma c_strings_step (t : thread) (s s' : state) :
  c_strings s -> step t s = Some s' -> c_strings s'.
Proof.
  destruct s as [g inp at_ buf e wat w_ we ps ts].
  unfold c_strings; simpl. intros [Hg Hw].
  destruct t; simpl.
  - destruct at_; try discriminate.
    + intros [= <-]; simpl; auto.
    + destruct (Stdio.scanf inp) as [[| |] inp']; intros [= <-]; simpl; auto.
    + intros [= <-]; simpl. split; [apply c_str_idem|exact Hw].
    + destruct (empty (data (s_word g))); [|discriminate].
      intros [= <-]; simpl; auto.
    + destruct wat; try discriminate. intros [= <-]; simpl; auto.
  - unfold worker_thread. destruct (running _); [|discriminate].
    destruct wat; try discriminate.
    + intros [= <-]; simpl; auto.
    + destruct (worker_thread_body (s_wordsMap g) w_ we) as [m' we'].
      intros [= <-]; simpl; auto.
Qed.

(** In every state of every run the [data] of [s_word] and of the worker's
    [w] is a C string: it holds no NUL byte. *)
Lemma words_are_c_strings
  (input : Stdio.stream) (sched : list thread) (s : state) :
  run sched (init input) = Some s -> c_strings s.
Proof.
  assert (H : forall sched s0 s1,
             c_strings s0 -> run sched s0 = Some s1 -> c_strings s1).
  { clear. induction sched as [|t sched IH]; simpl; intros s0 s1 H0 Hr.
    - now injection Hr as <-.
    - destruct (step t s0) as [s2|] eqn:E; [|discriminate].
      eapply IH; [|exact Hr]. eapply c_strings_step; eassumption. }
  apply H. split; reflexivity.
Qed.

End CStrings.

(** * The handoff through [s_word] *)

(** For a goal [exists x, e = Some x /\ _]: the value that [e] computes
    to. *)
Ltac exists_computed :=
  lazymatch goal with
  | |- ex (fun x => ?e = Some x /\ _) =>
      let r := eval vm_compute in e in
      lazymatch r with
      | Some ?v => exists v
      end
  end.

Ltac computed := vm_compute; reflexivity.

Section Handoff.

Import Ingest.

Lemma reachable_inv (input : Stdio.stream) (sched : list thread) (s : state) :
  run sched (init input) = Some s -> inv input s.
Proof. intros H. apply inv_reachable. exists sched. exact H. Qed.

Lemma tokens_all (l : list string) :
  (forall t, In t l -> t <> "") -> tokens l = l.
Proof.
  induction l as [|x l IH]; simpl; intros H; [reflexivity|].
  destruct x as [|a x]; simpl.
  - exfalso. apply (H ""); auto.
  - f_equal. apply IH. intros t Ht. apply H. now right.
Qed.

End Handoff.

(** C1. The tokens the main thread puts into [s_word] reach the worker
    exactly once each and in the order of the puts.  In every state of every
    interleaving of the two threads, the tokens put are the tokens taken
    followed by the at most one token still waiting in [s_word]; outside the
    main thread's wait nothing is waiting, so the two histories agree; the
    n-th token taken is the n-th token put.  The values put are the words of
    the input in reading order (each token as the C string the program reads
    in [lineBuf], cut at its first NUL byte), all of them tokens when none of
    these words is empty; and when [read_input_words] has returned they are
    the words of the input up to and including the first that is ["end"]. *)
Theorem handoff_in_order
  (input : Stdio.stream) (sched : list Ingest.thread) (s : Ingest.state) :
  Ingest.run sched (Ingest.init input) = Some s ->
  Ingest.tokens (Ingest.puts s)
  = Ingest.tokens (Ingest.takes s) ++ Ingest.pending s
  /\ (List.length (Ingest.pending s) <= 1)%nat
  /\ (Ingest.main_at s <> Ingest.MWait ->
      Ingest.tokens (Ingest.takes s) = Ingest.tokens (Ingest.puts s))
  /\ (forall n t,
        nth_error (Ingest.tokens (Ingest.takes s)) n = Some t ->
        nth_error (Ingest.tokens (Ingest.puts s)) n = Some t)
  /\ (exists read rest,
        input = read ++ rest /\ Ingest.puts s = Ingest.words read)
  /\ ((forall t, In t input -> c_str t <> "") ->
      Ingest.tokens (Ingest.puts s) = Ingest.puts s)
  /\ (Ingest.main_at s = Ingest.MReturned ->
      Ingest.puts s = Ingest.before_end input ++ ["end"]).
Proof.
  intros Hrun. pose proof (reachable_inv _ _ _ Hrun) as Hinv.
  split; [apply Hinv|].
  split; [apply pending_short|].
  split.
  { intros Hw. rewrite (Ingest.handoff _ _ Hinv).
    rewrite (inv_pending _ _ Hinv Hw). now rewrite app_nil_r. }
  split; [apply (inv_takes_prefix _ _ Hinv)|].
  split; [apply (inv_puts_prefix _ _ Hinv)|].
  split.
  { intros Hne. apply tokens_all. intros t Ht.
    destruct (inv_puts_prefix _ _ Hinv) as (read & rest & -> & Hp).
    rewrite Hp in Ht. apply in_map_iff in Ht. destruct Ht as (x & <- & Hx).
    apply Hne. apply in_or_app. now left. }
  intros Hr. apply (inv_returned _ _ Hinv Hr).
Qed.

Lemma handoff_in_order_witness :
  exists s,
    Ingest.run (Ingest.alternate ["b"; Stdio.end_nul_x; "y"])
      (Ingest.init ["b"; Stdio.end_nul_x; "y"]) = Some s
    /\ Ingest.main_at s = Ingest.MReturned
    /\ Ingest.tokens (Ingest.takes s) = ["b"; "end"]
    /\ Ingest.tokens (Ingest.puts s)
       = Ingest.tokens (Ingest.takes s) ++ Ingest.pending s
    /\ (List.length (Ingest.pending s) <= 1)%nat
    /\ (Ingest.main_at s <> Ingest.MWait ->
        Ingest.tokens (Ingest.takes s) = Ingest.tokens (Ingest.puts s))
    /\ (forall n t,
          nth_error (Ingest.tokens (Ingest.takes s)) n = Some t ->
          nth_error (Ingest.tokens (Ingest.puts s)) n = Some t)
    /\ (exists read rest,
          ["b"; Stdio.end_nul_x; "y"] = read ++ rest
          /\ Ingest.puts s = Ingest.words read)
    /\ ((forall t, In t ["b"; Stdio.end_nul_x; "y"] -> c_str t <> "") ->
        Ingest.tokens (Ingest.puts s) = Ingest.puts s)
    /\ (Ingest.main_at s = Ingest.MReturned ->
        Ingest.puts s
        = Ingest.before_end ["b"; Stdio.end_nul_x; "y"] ++ ["end"]).
Proof.
  exists_computed. split; [computed|]. split; [computed|].
  split; [computed|].
  apply (handoff_in_order ["b"; Stdio.end_nul_x; "y"]
           (Ingest.alternate ["b"; Stdio.end_nul_x; "y"])).
  computed.
Defined.

(** C2, which the code violates.  On an input that ends before any token,
    [read_input_words] returns from inside its loop: nothing is ever put into
    [s_word], the join is never reached, the worker never leaves its loop by
    its own test, and the return destroys the joinable [worker], which
    terminates the process. *)
Theorem eof_before_any_token :
  (exists s,
     Ingest.run [Ingest.Main; Ingest.Main] (Ingest.init []) = Some s
     /\ Ingest.main_at s = Ingest.MTerminate
     /\ Ingest.worker_at s = Ingest.WLock
     /\ Ingest.puts s = []
     /\ Ingest.step Ingest.Main s = None
     /\ Ingest.step Ingest.Worker s = None)
  /\ forall sched,
       match Ingest.run sched (Ingest.init []) with
       | Some s =>
           Ingest.puts s = []
           /\ Ingest.worker_endEncountered s = false
           /\ Ingest.worker_at s <> Ingest.WExit
           /\ Ingest.main_at s <> Ingest.MJoin
           /\ Ingest.main_at s <> Ingest.MReturned
       | None => True
       end.
Proof.
  split.
  - eexists. repeat split.
  - intros sched. destruct (Ingest.run sched (Ingest.init [])) as [s|] eqn:E;
      [|exact I].
    pose proof (reachable_inv _ _ _ E) as Hinv.
    assert (Hleft : ~ (Ingest.worker_at s = Ingest.WExit
                       \/ Ingest.main_at s = Ingest.MJoin
                       \/ Ingest.main_at s = Ingest.MReturned)).
    { intros H. apply (inv_left_loop _ _ Hinv) in H. destruct H. }
    split.
    { destruct (inv_puts_prefix _ _ Hinv) as (read & rest & Hrest & ->).
      symmetry in Hrest. apply app_eq_nil in Hrest.
      destruct Hrest as [-> _]. reflexivity. }
    split.
    { destruct Hinv as [_ (read & _ & Hm) Hw _].
      unfold Ingest.at_worker in *.
      destruct (Ingest.worker_at s) eqn:Ew.
      - rewrite Hw in Hm. subst s. reflexivity.
      - apply Hw.
      - apply Hw.
      - exfalso. apply Hleft. now left. }
    repeat split; intros H; apply Hleft; auto.
Qed.

(** * The table after ingestion *)

(** C3. On the input [b a b end], whatever the interleaving of the two
    threads, when [read_input_words] has returned the map holds exactly
    [a -> 1] and [b -> 2]; the iteration of [main] visits [("a", 1)] and then
    [("b", 2)], in ascending key order, and prints them in that order. *)
Theorem b_a_b_end_table (sched : list Ingest.thread) (s : Ingest.state) :
  Ingest.run sched (Ingest.init ["b"; "a"; "b"; "end"]) = Some s ->
  Ingest.main_at s = Ingest.MReturned ->
  s_wordsMap (Ingest.G s) = [("a", mkWordCount 1); ("b", mkWordCount 2)]
  /\ WordsMap.iterate (s_wordsMap (Ingest.G s)) = [("a", 1%Z); ("b", 2%Z)]
  /\ WordsMap.ordered (s_wordsMap (Ingest.G s))
  /\ Lookup.printed (Lookup.main_tail (Ingest.G s) (Ingest.stdin s))
     = [Lookup.WordListHeader; Lookup.WordLine "a" 1; Lookup.WordLine "b" 2;
        Lookup.Prompt; Lookup.Total 0].
Proof.
  intros Hrun Hr. pose proof (reachable_inv _ _ _ Hrun) as Hinv.
  destruct (inv_returned _ _ Hinv Hr) as (_ & _ & _ & Hin & _ & HG).
  rewrite HG, Hin. repeat split. simpl. apply tally_ordered.
Qed.

Lemma b_a_b_end_table_witness :
  exists s,
    Ingest.run (Ingest.alternate ["b"; "a"; "b"; "end"])
      (Ingest.init ["b"; "a"; "b"; "end"]) = Some s
    /\ Ingest.main_at s = Ingest.MReturned
    /\ s_wordsMap (Ingest.G s) = [("a", mkWordCount 1); ("b", mkWordCount 2)]
    /\ WordsMap.iterate (s_wordsMap (Ingest.G s)) = [("a", 1%Z); ("b", 2%Z)]
    /\ WordsMap.ordered (s_wordsMap (Ingest.G s))
    /\ Lookup.printed (Lookup.main_tail (Ingest.G s) (Ingest.stdin s))
       = [Lookup.WordListHeader; Lookup.WordLine "a" 1; Lookup.WordLine "b" 2;
          Lookup.Prompt; Lookup.Total 0].
Proof.
  eexists. split; [reflexivity|]. split; [reflexivity|].
  apply (b_a_b_end_table (Ingest.alternate ["b"; "a"; "b"; "end"]));
    reflexivity.
Defined.

(** C4. ["end"] ends the worker's loop and is never a key of the map: in
    every state of every run [find] misses it, the worker's loop body on
    ["end"] sets its flag and leaves the map alone, and a worker that has left
    its loop took ["end"] last and nothing equal to it before.  On the input
    [x x end], once [read_input_words] has returned, the lookup of [x]
    reports 2 occurrences and the lookups of [end] and [y] report a miss. *)
Theorem sentinel_never_counted
  (input : Stdio.stream) (sched : list Ingest.thread) (s : Ingest.state) :
  Ingest.run sched (Ingest.init input) = Some s ->
  WordsMap.find "end" (s_wordsMap (Ingest.G s)) = None
  /\ (forall m e, Ingest.worker_thread_body m (mkWord "end") e = (m, true))
  /\ (Ingest.worker_at s = Ingest.WExit ->
      exists ts, Ingest.takes s = ts ++ ["end"] /\ ~ In "end" ts)
  /\ (input = ["x"; "x"; "end"] ->
      Ingest.main_at s = Ingest.MReturned ->
      Ingest.worker_at s = Ingest.WExit
      /\ s_wordsMap (Ingest.G s) = [("x", mkWordCount 2)]
      /\ WordsMap.find "x" (s_wordsMap (Ingest.G s))
         = Some ("x", mkWordCount 2)
      /\ snd (Lookup.lookup_body (Ingest.G s) "x") = Lookup.Success "x" 2
      /\ snd (Lookup.lookup_body (Ingest.G s) "end") = Lookup.NotFound "end"
      /\ snd (Lookup.lookup_body (Ingest.G s) "y") = Lookup.NotFound "y").
Proof.
  intros Hrun. pose proof (reachable_inv _ _ _ Hrun) as Hinv.
  split.
  { destruct (inv_map_tally _ _ Hinv) as (l & -> & _).
    rewrite find_tally. reflexivity. }
  split; [reflexivity|].
  split.
  { intros Hx. destruct Hinv as [_ _ Hw _]. unfold Ingest.at_worker in Hw.
    rewrite Hx in Hw. destruct Hw as (ts & Hts & Hn & _).
    exists ts. split; [exact Hts|].
    intros Hin. rewrite Forall_forall in Hn. apply Hn in Hin. discriminate. }
  intros -> Hr.
  destruct (inv_returned _ _ Hinv Hr) as (_ & _ & _ & _ & Hx & HG).
  rewrite HG. repeat split. exact Hx.
Qed.

Lemma sentinel_never_counted_witness :
  exists s,
    Ingest.run (Ingest.alternate ["x"; "x"; "end"])
      (Ingest.init ["x"; "x"; "end"]) = Some s
    /\ Ingest.main_at s = Ingest.MReturned
    /\ WordsMap.find "end" (s_wordsMap (Ingest.G s)) = None
    /\ snd (Lookup.lookup_body (Ingest.G s) "x") = Lookup.Success "x" 2
    /\ snd (Lookup.lookup_body (Ingest.G s) "end") = Lookup.NotFound "end"
    /\ snd (Lookup.lookup_body (Ingest.G s) "y") = Lookup.NotFound "y".
Proof.
  eexists. split; [reflexivity|]. split; [reflexivity|].
  pose proof (sentinel_never_counted ["x"; "x"; "end"]
                (Ingest.alternate ["x"; "x"; "end"]) _ eq_refl)
    as (Hend & _ & _ & Hx).
  split; [exact Hend|]. apply (Hx eq_refl eq_refl).
Defined.



Section Overflow.

Import Ingest.





End Overflow.





(** * The lookup session *)

Section Session.

Import Lookup.

(** The loop of [lookup_words], stated with [scanf]. *)
Lemma lookup_words_scanf (g : globals) (input : Stdio.stream) :
  lookup_words g input
  = match Stdio.scanf input with
    | (Stdio.ScanEOF, input') => mkResult g input' [Prompt] Returned
    | (Stdio.ScanOverrun _, input') => mkResult g input' [Prompt] Undefined
    | (Stdio.ScanOk lineBuf, input') =>
        let '(g', line) := lookup_body g lineBuf in
        let r := lookup_words g' input' in
        mkResult (after r) (rest r) (Prompt :: line :: printed r) (ended r)
    end.
Proof.
  destruct input as [|tok input]; simpl; [reflexivity|].
  destruct (Stdio.fits tok); reflexivity.
Qed.

Lemma lookup_body_globals (g : globals) (q : string) :
  s_wordsMap (fst (lookup_body g q)) = s_wordsMap g
  /\ s_word (fst (lookup_body g q)) = s_word g
  /\ s_totalFound (fst (lookup_body g q))
     = if hit (s_wordsMap g) (c_str q) then Int.incr (s_totalFound g)
       else s_totalFound g.
Proof.
  unfold lookup_body, hit; simpl.
  destruct (WordsMap.find (c_str q) (s_wordsMap g)); simpl; auto.
Qed.

Lemma lookup_body_answer (g : globals) (q : string) :
  snd (lookup_body g q)
  = match WordsMap.find (c_str q) (s_wordsMap g) with
    | Some found => Success (fst found) (count (snd found))
    | None => NotFound (c_str q)
    end.
Proof.
  unfold lookup_body; simpl.
  destruct (WordsMap.find (c_str q) (s_wordsMap g)); reflexivity.
Qed.

Lemma lookup_words_step (g : globals) (tok : string) (input : Stdio.stream) :
  Stdio.fits tok = true ->
  lookup_words g (tok :: input)
  = let r := lookup_words (fst (lookup_body g tok)) input in
    mkResult (after r) (rest r)
      (Prompt :: snd (lookup_body g tok) :: printed r) (ended r).
Proof.
  intros Hf. simpl. rewrite Hf.
  destruct (lookup_body g tok) as [g' line]. reflexivity.
Qed.

Lemma lookup_words_map (input : Stdio.stream) :
  forall g,
    s_wordsMap (after (lookup_words g input)) = s_wordsMap g
    /\ s_word (after (lookup_words g input)) = s_word g.
Proof.
  induction input as [|tok input IH]; intros g; simpl; [auto|].
  destruct (Stdio.fits tok); simpl; [|auto].
  destruct (lookup_body_globals g tok) as (Hm & Hw & _).
  destruct (lookup_body g tok) as [g' line]; simpl in *.
  destruct (IH g') as [IH1 IH2]. rewrite IH1, IH2. auto.
Qed.

Lemma hits_le (m : WordsMap.t) (l : list string) :
  (hits m l <= List.length l)%nat.
Proof. apply filter_length_le. Qed.

Lemma answered_le (input : Stdio.stream) :
  (List.length (answered input) <= List.length input)%nat.
Proof.
  induction input as [|tok input IH]; simpl; [lia|].
  destruct (Stdio.fits tok); simpl; lia.
Qed.

Lemma lookup_words_total (input : Stdio.stream) :
  forall g,
    (Int.INT_MIN <= s_totalFound g)%Z ->
    (s_totalFound g + Z.of_nat (List.length input) <= Int.INT_MAX)%Z ->
    s_totalFound (after (lookup_words g input))
    = (s_totalFound g
       + Z.of_nat (hits (s_wordsMap g) (Ingest.words (answered input))))%Z.
Proof.
  induction input as [|tok input IH]; intros g Hlo Hhi; simpl.
  - unfold hits; simpl. lia.
  - destruct (Stdio.fits tok); simpl; [|unfold hits; simpl; lia].
    destruct (lookup_body_globals g tok) as (Hm & _ & Ht).
    destruct (lookup_body g tok) as [g' line]; simpl in *.
    change (S (List.length input)) with (1 + List.length input)%nat in Hhi.
    assert (Hg' : s_totalFound g'
                  = (s_totalFound g
                     + if hit (s_wordsMap g) (c_str tok) then 1 else 0)%Z).
    { rewrite Ht. destruct (hit (s_wordsMap g) (c_str tok)); [|lia].
      unfold Int.incr, Int.add. apply wrap_small.
      unfold Int.INT_MIN, Int.INT_MAX in *. lia. }
    rewrite IH, Hm, Hg'.
    + unfold hits; simpl.
      destruct (hit (s_wordsMap g) (c_str tok)); simpl; lia.
    + rewrite Hg'. destruct (hit (s_wordsMap g) (c_str tok)); lia.
    + rewrite Hg'. destruct (hit (s_wordsMap g) (c_str tok)); lia.
Qed.

End Session.

(** * The whole program *)

Section Program.

Import Ingest Lookup.

(** Whatever the interleaving, a run of [main] that gets past
    [read_input_words] continues from the same globals and the same unread
    input. *)
Lemma main_result (sched : list thread) (input : Stdio.stream) (r : result) :
  main sched input = Some r ->
  r = main_tail (mkGlobals (tally (before_end input)) Word_default 0)
        (after_end input).
Proof.
  unfold main. destruct (run sched (init input)) as [s|] eqn:Hrun;
    [|discriminate].
  destruct (main_at s) eqn:Hat; try discriminate. intros [= <-].
  pose proof (reachable_inv _ _ _ Hrun) as Hinv.
  destruct (inv_returned _ _ Hinv Hat) as (_ & _ & _ & Hs & _ & HG).
  now rewrite HG, Hs.
Qed.

Lemma main_alternate (input : Stdio.stream) :
  outcome input = MReturned ->
  main (alternate input) input
  = Some (main_tail (mkGlobals (tally (before_end input)) Word_default 0)
            (after_end input)).
Proof.
  intros Ho. destruct (alternate_run input) as (s & Hrun & Hat).
  rewrite Ho in Hat.
  assert (Hm : main (alternate input) input
               = Some (main_tail (G s) (stdin s))).
  { unfold main. now rewrite Hrun, Hat. }
  rewrite Hm. f_equal. apply (main_result _ _ _ Hm).
Qed.

(** [fits] says that the token with its NUL has at most 32 bytes. *)
Lemma forallb_in_bounds (l : list ascii) :
  forall a,
    forallb Stdio.in_bounds (combine (seq a (List.length l)) l) = true
    <-> (l = [] \/ a + List.length l <= Stdio.LINEBUF_SIZE)%nat.
Proof.
  unfold Stdio.in_bounds.
  induction l as [|c l IH]; intros a; simpl.
  - split; auto.
  - rewrite andb_true_iff, IH, Nat.ltb_lt. split.
    + intros [Ha [->|Hl]]; right; simpl; lia.
    + intros [H|H]; [discriminate|]. split; [lia|].
      destruct l; [now left|right]. simpl in *. lia.
Qed.

Lemma stored_length (tok : string) :
  List.length (Stdio.stored tok) = S (String.length tok).
Proof.
  unfold Stdio.stored. rewrite length_app. simpl.
  induction tok as [|c tok IH]; simpl; [reflexivity|].
  simpl in IH. lia.
Qed.

Lemma fits_iff (tok : string) :
  Stdio.fits tok = true <-> (String.length tok < Stdio.LINEBUF_SIZE)%nat.
Proof.
  unfold Stdio.fits, Stdio.stores.
  rewrite forallb_in_bounds, stored_length. split.
  - intros [H|H]; [|simpl in H; lia].
    apply (f_equal (@List.length ascii)) in H.
    rewrite stored_length in H. discriminate.
  - intros H. right. simpl. lia.
Qed.

End Program.

(** C5, which the code violates.  [lookup_words] does not stop at the
    query ["end"]: it answers it like any other word and goes on with the
    next query; only EOF ends the loop.  With [x x end] ingested and the
    queries [end x], whatever the interleaving of the ingestion, the session
    reports a miss for [end], then answers [x], and the total is 1. *)
Theorem lookup_goes_on_after_end :
  (forall g input,
     Lookup.lookup_words g ("end" :: input)
     = let r := Lookup.lookup_words
                  (fst (Lookup.lookup_body g "end")) input in
       Lookup.mkResult (Lookup.after r) (Lookup.rest r)
         (Lookup.Prompt :: snd (Lookup.lookup_body g "end")
            :: Lookup.printed r)
         (Lookup.ended r))
  /\ Lookup.main (Ingest.alternate ["x"; "x"; "end"; "end"; "x"])
       ["x"; "x"; "end"; "end"; "x"]
     = Some (Lookup.mkResult
               (mkGlobals [("x", mkWordCount 2)] Word_default 1) []
               [Lookup.WordListHeader; Lookup.WordLine "x" 2;
                Lookup.Prompt; Lookup.NotFound "end";
                Lookup.Prompt; Lookup.Success "x" 2;
                Lookup.Prompt; Lookup.Total 1]
               Lookup.Returned)
  /\ forall sched,
       match Lookup.main sched ["x"; "x"; "end"; "end"; "x"] with
       | Some r =>
           Lookup.printed r
           = [Lookup.WordListHeader; Lookup.WordLine "x" 2;
              Lookup.Prompt; Lookup.NotFound "end";
              Lookup.Prompt; Lookup.Success "x" 2;
              Lookup.Prompt; Lookup.Total 1]
       | None => True
       end.
Proof.
  split; [|split].
  - intros g input. now apply lookup_words_step.
  - reflexivity.
  - intros sched.
    destruct (Lookup.main sched ["x"; "x"; "end"; "end"; "x"]) as [r|] eqn:E;
      [|exact I].
    apply main_result in E. subst r. reflexivity.
Qed.

(** C6, which the code violates.  [scanf("%s")] stores every character of
    a token and a NUL, however long the token: nothing is cut off and nothing
    is refused.  A token fits [lineBuf] only when it has fewer than 32
    characters; for one of 32 characters the NUL is stored at offset 32, past
    the end of the array, in [read_input_words] and in [lookup_words]
    alike. *)
Theorem long_token_overruns_lineBuf :
  String.length Stdio.long_token = 32%nat
  /\ (forall tok, List.length (Stdio.stored tok) = S (String.length tok))
  /\ (forall tok,
        Stdio.fits tok = true
        <-> (String.length tok < Stdio.LINEBUF_SIZE)%nat)
  /\ In (32%nat, Ascii.zero) (Stdio.stores Stdio.long_token)
  /\ Stdio.in_bounds (32%nat, Ascii.zero) = false
  /\ Stdio.scanf [Stdio.long_token]
     = (Stdio.ScanOverrun Stdio.long_token, [])
  /\ (exists s,
        Ingest.run [Ingest.Main; Ingest.Main]
          (Ingest.init [Stdio.long_token]) = Some s
        /\ Ingest.main_at s = Ingest.MUndefined)
  /\ forall g,
       Lookup.ended (Lookup.lookup_words g [Stdio.long_token])
       = Lookup.Undefined.
Proof.
  split; [reflexivity|].
  split; [apply stored_length|].
  split; [apply fits_iff|].
  split; [vm_compute; tauto|].
  split; [reflexivity|].
  split; [reflexivity|].
  split; [eexists; split; reflexivity|].
  intros g. reflexivity.
Qed.

(** C7. [s_totalFound] counts the hits of the session.  One pass of the loop
    body increments it when the query, read as a C string (its bytes before
    its first NUL byte), is a key of the map and leaves it alone otherwise;
    and as long as the counter cannot overflow, a session adds to it the
    number of the answered queries that, read so, are keys of the map.  For
    queries [x y x] against the map [x -> 2] the counter ends at 2, and so
    it does for the program run on [x x end x y x], whatever the
    interleaving of the ingestion; the query [x<NUL>y] is a hit for [x]. *)
Theorem total_found_counts_hits (g : globals) (input : Stdio.stream) :
  (Int.INT_MIN <= s_totalFound g)%Z ->
  (s_totalFound g + Z.of_nat (List.length input) <= Int.INT_MAX)%Z ->
  (forall q,
     s_totalFound (fst (Lookup.lookup_body g q))
     = match WordsMap.find (c_str q) (s_wordsMap g) with
       | Some _ => Int.incr (s_totalFound g)
       | None => s_totalFound g
       end)
  /\ s_totalFound (Lookup.after (Lookup.lookup_words g input))
     = (s_totalFound g
        + Z.of_nat
            (Lookup.hits (s_wordsMap g)
               (Ingest.words (Lookup.answered input))))%Z
  /\ (s_wordsMap g = [("x", mkWordCount 2)] -> s_totalFound g = 0%Z ->
      input = ["x"; "y"; "x"] ->
      s_totalFound (Lookup.after (Lookup.lookup_words g input)) = 2%Z)
  /\ (s_wordsMap g = [("x", mkWordCount 2)] -> s_totalFound g = 0%Z ->
      s_totalFound
        (fst (Lookup.lookup_body g (String "x" (String Ascii.zero "y"))))
      = 1%Z)
  /\ (forall sched r,
        Lookup.main sched ["x"; "x"; "end"; "x"; "y"; "x"] = Some r ->
        s_wordsMap (Lookup.after r) = [("x", mkWordCount 2)]
        /\ s_totalFound (Lookup.after r) = 2%Z
        /\ Lookup.printed r
           = [Lookup.WordListHeader; Lookup.WordLine "x" 2;
              Lookup.Prompt; Lookup.Success "x" 2;
              Lookup.Prompt; Lookup.NotFound "y";
              Lookup.Prompt; Lookup.Success "x" 2;
              Lookup.Prompt; Lookup.Total 2]).
Proof.
  intros Hlo Hhi. split; [|split; [|split; [|split]]].
  - intros q. destruct (lookup_body_globals g q) as (_ & _ & ->).
    unfold Lookup.hit.
    destruct (WordsMap.find (c_str q) (s_wordsMap g)); reflexivity.
  - now apply lookup_words_total.
  - intros Hm Ht ->. rewrite lookup_words_total by assumption.
    rewrite Hm, Ht. reflexivity.
  - intros Hm Ht.
    destruct (lookup_body_globals g (String "x" (String Ascii.zero "y")))
      as (_ & _ & ->).
    rewrite Hm, Ht. reflexivity.
  - intros sched r E. apply main_result in E. subst r. repeat split.
Qed.

Lemma total_found_counts_hits_witness :
  (Int.INT_MIN <= 0)%Z
  /\ (0 + Z.of_nat (List.length ["x"; "y"; "x"]) <= Int.INT_MAX)%Z
  /\ s_totalFound
       (Lookup.after
          (Lookup.lookup_words
             (mkGlobals [("x", mkWordCount 2)] Word_default 0)
             ["x"; "y"; "x"])) = 2%Z.
Proof.
  assert (Hlo : (Int.INT_MIN <= 0)%Z) by (vm_compute; discriminate).
  assert (Hhi : (0 + Z.of_nat (List.length ["x"; "y"; "x"]) <= Int.INT_MAX)%Z)
    by (vm_compute; discriminate).
  split; [exact Hlo|]. split; [exact Hhi|].
  apply (total_found_counts_hits
           (mkGlobals [("x", mkWordCount 2)] Word_default 0)
           ["x"; "y"; "x"] Hlo Hhi); reflexivity.
Defined.

(** C8. Lookups do not change the map.  Neither one pass of the loop body
    of [lookup_words] nor a whole session changes [s_wordsMap] (or [s_word]);
    so the same query gets the same answer when it is asked again, right away
    or after any session. *)
Theorem lookups_leave_table
  (g : globals) (input : Stdio.stream) (q : string) :
  s_wordsMap (fst (Lookup.lookup_body g q)) = s_wordsMap g
  /\ s_wordsMap (Lookup.after (Lookup.lookup_words g input)) = s_wordsMap g
  /\ s_word (Lookup.after (Lookup.lookup_words g input)) = s_word g
  /\ snd (Lookup.lookup_body (fst (Lookup.lookup_body g q)) q)
     = snd (Lookup.lookup_body g q)
  /\ snd (Lookup.lookup_body (Lookup.after (Lookup.lookup_words g input)) q)
     = snd (Lookup.lookup_body g q).
Proof.
  destruct (lookup_body_globals g q) as (Hm & _ & _).
  destruct (lookup_words_map input g) as (Hs & Hw).
  repeat split; try assumption.
  - now rewrite !lookup_body_answer, Hm.
  - now rewrite !lookup_body_answer, Hs.
Qed.

(** * Further properties of the ingestion *)

Section Endings.

Import Ingest.

Lemma read_ok_init (input : Stdio.stream) : read_ok input (init input).
Proof. reflexivity. Qed.

Lemma read_ok_step (input : Stdio.stream) (t : thread) (s s' : state) :
  read_ok input s -> step t s = Some s' -> read_ok input s'.
Proof.
  destruct s as [g inp at_ buf e wat w_ we ps ts].
  unfold read_ok, heading; simpl. intros <-.
  destruct t; simpl.
  - destruct at_; simpl; try discriminate.
    + intros [= <-]; reflexivity.
    + destruct (scanf_cases inp)
        as [(-> & E)|[(tok & inp' & -> & Hf & E)|(tok & inp' & -> & Hf & E)]];
        rewrite E; intros [= <-]; simpl; try rewrite Hf; reflexivity.
    + intros [= <-]; reflexivity.
    + destruct (empty (data (s_word g))); [|discriminate].
      intros [= <-]; simpl. destruct e; reflexivity.
    + destruct wat; try discriminate. intros [= <-]; reflexivity.
  - unfold worker_thread. destruct (running _); [|discriminate].
    destruct wat; try discriminate.
    + intros [= <-]; reflexivity.
    + destruct (worker_thread_body (s_wordsMap g) w_ we) as [m' we'].
      intros [= <-]; reflexivity.
Qed.

Lemma read_ok_run (input : Stdio.stream) (sched : list thread) :
  forall s s', read_ok input s -> run sched s = Some s' -> read_ok input s'.
Proof.
  induction sched as [|t sched IH]; simpl; intros s s' Hi Hr.
  - now injection Hr as <-.
  - destruct (step t s) as [s1|] eqn:E; [|discriminate].
    eapply IH; [|exact Hr]. eapply read_ok_step; eassumption.
Qed.

Lemma outcome_app (pre rest : list string) :
  Forall (fun t => Stdio.fits t = true) pre -> Forall not_end (words pre) ->
  outcome (pre ++ rest) = outcome rest.
Proof.
  induction 1 as [|x pre Hx _ IH]; intros Hn; simpl; [reflexivity|].
  inversion Hn as [|? ? Hx' Hn']; subst. unfold not_end in Hx'.
  rewrite Hx, Hx'. auto.
Qed.

Lemma finished_outcome (input : Stdio.stream) (s : state) :
  read_ok input s -> finished s = true -> main_at s = outcome input.
Proof.
  unfold read_ok, heading, finished.
  destruct (main_at s); try discriminate; auto.
Qed.

Lemma run_outcome (input : Stdio.stream) (sched : list thread) (s : state) :
  run sched (init input) = Some s -> finished s = true ->
  main_at s = outcome input.
Proof.
  intros Hrun. apply finished_outcome.
  exact (read_ok_run _ _ _ _ (read_ok_init input) Hrun).
Qed.

Lemma not_in_words (pre : list string) :
  ~ In "end" (words pre) <-> Forall not_end (words pre).
Proof.
  rewrite Forall_forall. split.
  - intros Hn t Ht. apply is_end_false_iff. intros ->. contradiction.
  - intros Hn Hin. apply Hn in Hin. discriminate.
Qed.

Lemma outcome_returned_iff (input : Stdio.stream) :
  outcome input = MReturned
  <-> exists pre tok rest,
        input = pre ++ tok :: rest /\ c_str tok = "end"
        /\ (String.length tok < Stdio.LINEBUF_SIZE)%nat
        /\ ~ In "end" (words pre)
        /\ forall t, In t pre -> (String.length t < Stdio.LINEBUF_SIZE)%nat.
Proof.
  split.
  - induction input as [|x input IH]; simpl; [discriminate|].
    destruct (Stdio.fits x) eqn:Hf; [|discriminate].
    destruct (is_end (c_str x)) eqn:He.
    + intros _. apply is_end_iff in He.
      exists [], x, input. simpl. split; [reflexivity|].
      split; [exact He|]. split; [now apply fits_iff|]. split; tauto.
    + intros Ho. destruct (IH Ho) as (pre & tok & rest & -> & Ht & Hl & Hn & Hp).
      exists (x :: pre), tok, rest. simpl. split; [reflexivity|].
      split; [exact Ht|]. split; [exact Hl|]. split.
      * apply is_end_false_iff in He. intros [H|H]; [congruence|tauto].
      * intros t [<-|Hin]; [now apply fits_iff|auto].
  - intros (pre & tok & rest & -> & Ht & Hl & Hn & Hp).
    rewrite outcome_app.
    + simpl. apply fits_iff in Hl. rewrite Hl, Ht. reflexivity.
    + apply Forall_forall. intros t Hin. apply fits_iff. auto.
    + now apply not_in_words.
Qed.

Lemma outcome_no_end (input : Stdio.stream) :
  ~ In "end" (words input) ->
  (forall t, In t input -> (String.length t < Stdio.LINEBUF_SIZE)%nat) ->
  outcome input = MTerminate.
Proof.
  intros Hn Hl. rewrite <- (app_nil_r input).
  rewrite outcome_app; [reflexivity| |].
  - apply Forall_forall. intros t Ht. apply fits_iff. auto.
  - now apply not_in_words.
Qed.

End Endings.

Section Ordered.

Import WordsMap.

Lemma lt_irrefl (k : string) : ~ lt k k.
Proof. unfold lt. rewrite compare_refl. discriminate. Qed.

Lemma ordered_NoDup (m : t) : ordered m -> NoDup (keys m).
Proof.
  unfold ordered. induction 1 as [|k l Hs IH Hf]; constructor; [|exact IH].
  intros Hin. rewrite Forall_forall in Hf. apply (lt_irrefl k). auto.
Qed.

(** In an ordered map [find] returns the entry that is there. *)
Lemma find_In (m : t) (k : string) (v : wordCount) :
  ordered m -> In (k, v) m -> find k m = Some (k, v).
Proof.
  intros Ho. apply ordered_NoDup in Ho. unfold keys in Ho.
  induction m as [|[k' v'] m IH]; simpl; [tauto|].
  inversion Ho as [|? ? Hn Hd]; subst. intros [[= -> ->]|Hin].
  - now rewrite String.eqb_refl.
  - destruct (String.eqb_spec k k') as [->|Hne]; [|auto].
    exfalso. apply Hn. change k' with (fst (k', v)). now apply in_map.
Qed.

End Ordered.

(** X1. The map is sorted at every moment of every run: in each state
    that the two threads can reach, the keys of [s_wordsMap] are strictly
    ascending in [std::string] order, so no key occurs twice and the
    iteration of [main] meets the words in that order. *)
Theorem table_sorted_always
  (input : Stdio.stream) (sched : list Ingest.thread) (s : Ingest.state) :
  Ingest.run sched (Ingest.init input) = Some s ->
  WordsMap.ordered (s_wordsMap (Ingest.G s))
  /\ NoDup (WordsMap.keys (s_wordsMap (Ingest.G s)))
  /\ NoDup (map fst (WordsMap.iterate (s_wordsMap (Ingest.G s)))).
Proof.
  intros Hrun. pose proof (reachable_inv _ _ _ Hrun) as Hinv.
  destruct (inv_map_tally _ _ Hinv) as (l & -> & _).
  pose proof (tally_ordered l) as Ho.
  split; [exact Ho|]. split; [now apply ordered_NoDup|].
  unfold WordsMap.iterate. rewrite map_map. simpl.
  now apply ordered_NoDup.
Qed.

Lemma table_sorted_always_witness :
  exists s,
    Ingest.run (Ingest.alternate ["p"; "a"; "f"; "a"])
      (Ingest.init ["p"; "a"; "f"; "a"]) = Some s
    /\ WordsMap.ordered (s_wordsMap (Ingest.G s))
    /\ NoDup (WordsMap.keys (s_wordsMap (Ingest.G s)))
    /\ NoDup (map fst (WordsMap.iterate (s_wordsMap (Ingest.G s)))).
Proof.
  exists_computed. split; [computed|].
  apply (table_sorted_always ["p"; "a"; "f"; "a"]
           (Ingest.alternate ["p"; "a"; "f"; "a"])).
  computed.
Defined.



(** X3. The input alone decides how [read_input_words] ends.  Whatever the
    interleaving, once the function is over it has ended the way [outcome]
    computes from the input, and the alternating schedule does bring it
    there.  It has returned through the join exactly when the input holds a
    token that reads ["end"] as a C string (its bytes before its first NUL
    byte) and is shorter than 32 characters, before which no token reads
    ["end"] and every token is shorter than 32 characters; with no token that
    reads ["end"] and no long token it ends in the [return] at EOF. *)
Theorem ending_is_outcome
  (input : Stdio.stream) (sched : list Ingest.thread) (s : Ingest.state) :
  Ingest.run sched (Ingest.init input) = Some s ->
  Ingest.finished s = true ->
  Ingest.main_at s = Ingest.outcome input
  /\ (exists s0,
        Ingest.run (Ingest.alternate input) (Ingest.init input) = Some s0
        /\ Ingest.main_at s0 = Ingest.main_at s)
  /\ (Ingest.main_at s = Ingest.MReturned
      <-> exists pre tok rest,
            input = pre ++ tok :: rest /\ c_str tok = "end"
            /\ (String.length tok < Stdio.LINEBUF_SIZE)%nat
            /\ ~ In "end" (Ingest.words pre)
            /\ forall t, In t pre ->
                 (String.length t < Stdio.LINEBUF_SIZE)%nat)
  /\ (~ In "end" (Ingest.words input) ->
      (forall t, In t input -> (String.length t < Stdio.LINEBUF_SIZE)%nat) ->
      Ingest.main_at s = Ingest.MTerminate).
Proof.
  intros Hrun Hfin.
  pose proof (run_outcome _ _ _ Hrun Hfin) as Ho.
  split; [exact Ho|]. split.
  { destruct (alternate_run input) as (s0 & H0 & H1).
    exists s0. split; [exact H0|congruence]. }
  split.
  { rewrite Ho. apply outcome_returned_iff. }
  intros Hn Hl. rewrite Ho. now apply outcome_no_end.
Qed.

Lemma ending_is_outcome_witness :
  exists s,
    Ingest.run (Ingest.alternate ["x"; Stdio.end_nul_x; "y"; "x"])
      (Ingest.init ["x"; Stdio.end_nul_x; "y"; "x"]) = Some s
    /\ Ingest.finished s = true
    /\ Ingest.main_at s = Ingest.MReturned.
Proof.
  exists_computed. split; [computed|]. split; [computed|].
  refine (proj1 (ending_is_outcome ["x"; Stdio.end_nul_x; "y"; "x"]
                   (Ingest.alternate ["x"; Stdio.end_nul_x; "y"; "x"])
                   _ _ _));
    computed.
Defined.

(** X4. After the join nothing moves any more.  In a state in which
    [read_input_words] has returned the worker has left its loop, neither
    thread has a step left, [s_word] is empty and [s_totalFound] is still 0:
    every continuation of the run stays in that state, so the map that [main]
    prints and looks up is the final one. *)
Theorem returned_is_final
  (input : Stdio.stream) (sched : list Ingest.thread) (s : Ingest.state) :
  Ingest.run sched (Ingest.init input) = Some s ->
  Ingest.main_at s = Ingest.MReturned ->
  Ingest.worker_at s = Ingest.WExit
  /\ Ingest.step Ingest.Main s = None
  /\ Ingest.step Ingest.Worker s = None
  /\ s_word (Ingest.G s) = Word_default
  /\ s_totalFound (Ingest.G s) = 0%Z
  /\ forall more s', Ingest.run more s = Some s' -> s' = s.
Proof.
  intros Hrun Hr. pose proof (reachable_inv _ _ _ Hrun) as Hinv.
  destruct (inv_returned _ _ Hinv Hr) as (_ & _ & _ & _ & Hx & HG).
  assert (Hm : Ingest.step Ingest.Main s = None).
  { destruct s; simpl in *. now rewrite Hr. }
  assert (Hw : Ingest.step Ingest.Worker s = None).
  { destruct s; simpl in *. unfold Ingest.worker_thread; simpl.
    rewrite Hr, Hx. reflexivity. }
  repeat split; try assumption; try (rewrite HG; reflexivity).
  intros more s' Hmore. destruct more as [|[|] more]; simpl in Hmore.
  - congruence.
  - change (Ingest.read_input_words s) with (Ingest.step Ingest.Main s)
      in Hmore. rewrite Hm in Hmore. discriminate.
  - change (Ingest.worker_thread s) with (Ingest.step Ingest.Worker s)
      in Hmore. rewrite Hw in Hmore. discriminate.
Qed.

Lemma returned_is_final_witness :
  exists s,
    Ingest.run (Ingest.alternate ["p"; "end"; "f"])
      (Ingest.init ["p"; "end"; "f"]) = Some s
    /\ Ingest.main_at s = Ingest.MReturned
    /\ Ingest.worker_at s = Ingest.WExit
    /\ Ingest.step Ingest.Main s = None
    /\ Ingest.step Ingest.Worker s = None
    /\ s_word (Ingest.G s) = Word_default
    /\ s_totalFound (Ingest.G s) = 0%Z
    /\ forall more s', Ingest.run more s = Some s' -> s' = s.
Proof.
  exists_computed. split; [computed|]. split; [computed|].
  apply (returned_is_final ["p"; "end"; "f"]
           (Ingest.alternate ["p"; "end"; "f"])); computed.
Defined.

(** X5. Without a token that reads ["end"] as a C string (its bytes
    before its first NUL byte) the two threads never meet at the join: in no
    state of any run has the worker left its loop, and the main thread is
    neither in [worker.join()] nor past it; no ["end"] is ever put into
    [s_word] or taken from it. *)
Theorem no_end_no_join
  (input : Stdio.stream) (sched : list Ingest.thread) (s : Ingest.state) :
  ~ In "end" (Ingest.words input) ->
  Ingest.run sched (Ingest.init input) = Some s ->
  Ingest.worker_at s <> Ingest.WExit
  /\ Ingest.main_at s <> Ingest.MJoin
  /\ Ingest.main_at s <> Ingest.MReturned
  /\ ~ In "end" (Ingest.puts s)
  /\ ~ In "end" (Ingest.takes s).
Proof.
  intros Hn Hrun. pose proof (reachable_inv _ _ _ Hrun) as Hinv.
  assert (Hleft : ~ (Ingest.worker_at s = Ingest.WExit
                     \/ Ingest.main_at s = Ingest.MJoin
                     \/ Ingest.main_at s = Ingest.MReturned)).
  { intros H. apply Hn. apply (inv_left_loop _ _ Hinv H). }
  assert (Hp : ~ In "end" (Ingest.puts s)).
  { intros Hin. apply Hn. destruct (inv_puts_words _ _ Hinv) as [rest ->].
    apply in_or_app. now left. }
  repeat split; try (intros H; apply Hleft; tauto); try exact Hp.
  intros Hin. apply Hp.
  assert (Ht : In "end" (Ingest.tokens (Ingest.puts s))).
  { rewrite (Ingest.handoff _ _ Hinv). apply in_or_app. left.
    apply filter_In. split; [exact Hin|reflexivity]. }
  apply filter_In in Ht. apply Ht.
Qed.

Lemma no_end_no_join_witness :
  exists s,
    Ingest.run (Ingest.alternate ["p"; "f"])
      (Ingest.init ["p"; "f"]) = Some s
    /\ ~ In "end" (Ingest.words ["p"; "f"])
    /\ Ingest.worker_at s <> Ingest.WExit
    /\ Ingest.main_at s <> Ingest.MJoin
    /\ Ingest.main_at s <> Ingest.MReturned
    /\ ~ In "end" (Ingest.puts s)
    /\ ~ In "end" (Ingest.takes s).
Proof.
  assert (Hn : ~ In "end" (Ingest.words ["p"; "f"])).
  { simpl. intros [H|[H|H]]; [discriminate H|discriminate H|exact H]. }
  exists_computed. split; [computed|]. split; [exact Hn|].
  apply (no_end_no_join ["p"; "f"] (Ingest.alternate ["p"; "f"]) _ Hn).
  computed.
Defined.

Section Waiting.

Import Ingest.

(** An ["end"] cannot have been taken while a later token is still
    waiting. *)
Lemma end_not_overtaken (ps ts : list string) (b p : string) :
  Forall not_end ps ->
  tokens (ps ++ [b]) = tokens (ts ++ ["end"]) ++ [p] -> False.
Proof.
  intros Hn H. rewrite !tokens_app, tokens_end in H.
  assert (Hin : In "end" (tokens ps)).
  { unfold tokens at 2 in H. simpl in H. destruct (negb (empty b)).
    - apply app_inj_tail in H. destruct H as [-> _].
      apply in_or_app. right. now left.
    - rewrite app_nil_r in H. rewrite H.
      apply in_or_app. left. apply in_or_app. right. now left. }
  apply filter_In in Hin. destruct Hin as [Hin _].
  rewrite Forall_forall in Hn. apply Hn in Hin. discriminate.
Qed.

(** While the main thread waits or joins, at most two steps of the worker
    let it go on. *)
Lemma inv_main_unblocked (input : Stdio.stream) (s : state) :
  inv input s ->
  main_at s = MWait \/ main_at s = MJoin ->
  exists n s' s'',
    (n <= 2)%nat
    /\ run (repeat Worker n) s = Some s'
    /\ step Main s' = Some s''.
Proof.
  intros [Hh Hm Hw _] Hat.
  destruct s as [[m wd tf] inp at_ buf e wat w_ we ps ts].
  unfold at_main, at_worker, pending in *.
  simpl in *. destruct Hm as (read & _ & Hm).
  destruct Hat as [-> | ->].
  - (* in the wait *)
    destruct Hm as (_ & _ & ps' & Hps & Hn).
    destruct wd as [[|c d]].
    { exists 0%nat. do 2 eexists. split; [lia|]. split; reflexivity. }
    simpl in Hh. subst ps.
    destruct wat.
    + discriminate.
    + exists 1%nat. do 2 eexists. split; [lia|]. split; reflexivity.
    + destruct Hw as (-> & ts' & -> & _ & _).
      destruct w_ as [x]; simpl in *.
      destruct (is_end x) eqn:Ex.
      { apply is_end_iff in Ex. subst x.
        exfalso. eapply end_not_overtaken; eassumption. }
      exists 2%nat.
      pose proof (worker_thread_body_flag m x) as Ef. rewrite Ex in Ef.
      cbn -[worker_thread_body].
      destruct (worker_thread_body m (mkWord x) false) as [m' we'].
      simpl in Ef. subst we'. cbn.
      do 2 eexists. split; [lia|]. split; reflexivity.
    + destruct Hw as (ts' & -> & _ & _).
      exfalso. eapply end_not_overtaken; eassumption.
  - (* in the join *)
    destruct Hm as (Hd & _ & ps' & Hps & Hn).
    destruct wd as [d]; simpl in *. subst d ps.
    simpl in Hh. rewrite app_nil_r in Hh.
    assert (Hin : In "end" ts).
    { assert (H : In "end" (tokens ts)).
      { rewrite <- Hh, tokens_app, tokens_end.
        apply in_or_app. right. now left. }
      apply filter_In in H. apply H. }
    destruct wat.
    + discriminate.
    + destruct Hw as (Hnt & _). rewrite Forall_forall in Hnt.
      apply Hnt in Hin. discriminate.
    + destruct Hw as (-> & ts' & -> & Hnt & _).
      destruct w_ as [x]; simpl in *.
      apply in_app_or in Hin. destruct Hin as [Hin|[->|[]]].
      { rewrite Forall_forall in Hnt. apply Hnt in Hin. discriminate. }
      exists 1%nat. do 2 eexists. split; [lia|]. split; reflexivity.
    + exists 0%nat. do 2 eexists. split; [lia|]. split; reflexivity.
Qed.

End Waiting.

(** X6. The main thread never waits long.  In every state of every run in
    which [read_input_words] stands in its wait or in the join, at most two
    steps of the worker (finish the loop body, swap) make the wait or the
    join return: the worker cannot have left its loop while a token is still
    in [s_word], and it cannot be short of ["end"] when the main thread
    joins. *)
Theorem main_waits_two_steps
  (input : Stdio.stream) (sched : list Ingest.thread) (s : Ingest.state) :
  Ingest.run sched (Ingest.init input) = Some s ->
  Ingest.main_at s = Ingest.MWait \/ Ingest.main_at s = Ingest.MJoin ->
  exists n s' s'',
    (n <= 2)%nat
    /\ Ingest.run (repeat Ingest.Worker n) s = Some s'
    /\ Ingest.step Ingest.Main s' = Some s''.
Proof.
  intros Hrun Hat. eapply inv_main_unblocked; [|exact Hat].
  eapply reachable_inv. exact Hrun.
Qed.

Lemma main_waits_two_steps_witness :
  exists s,
    Ingest.run [Ingest.Main; Ingest.Worker; Ingest.Main; Ingest.Main]
      (Ingest.init ["p"; "end"]) = Some s
    /\ (Ingest.main_at s = Ingest.MWait \/ Ingest.main_at s = Ingest.MJoin)
    /\ exists n s' s'',
         (n <= 2)%nat
         /\ Ingest.run (repeat Ingest.Worker n) s = Some s'
         /\ Ingest.step Ingest.Main s' = Some s''.
Proof.
  exists_computed. split; [computed|].
  assert (H : Ingest.MWait = Ingest.MWait \/ Ingest.MWait = Ingest.MJoin)
    by (left; reflexivity).
  split; [exact H|].
  apply (main_waits_two_steps ["p"; "end"]
           [Ingest.Main; Ingest.Worker; Ingest.Main; Ingest.Main]);
    [computed|exact H].
Defined.

(** * Further properties of the program *)

Section Output.

Import Ingest Lookup.

Lemma main_returned (sched : list thread) (input : Stdio.stream) (r : result) :
  main sched input = Some r -> outcome input = MReturned.
Proof.
  unfold main. destruct (run sched (init input)) as [s|] eqn:Hrun;
    [|discriminate].
  destruct (main_at s) eqn:Hat; try discriminate. intros _.
  rewrite <- Hat. symmetry. apply (run_outcome _ _ _ Hrun).
  unfold finished. now rewrite Hat.
Qed.

Lemma lookup_body_same_map (g g' : globals) (q : string) :
  s_wordsMap g' = s_wordsMap g ->
  snd (lookup_body g' q) = snd (lookup_body g q).
Proof. intros H. now rewrite !lookup_body_answer, H. Qed.

Lemma flat_map_same {A B : Type} (f f' : A -> list B) (l : list A) :
  (forall a, f a = f' a) -> flat_map f l = flat_map f' l.
Proof. intros H. induction l as [|a l IH]; simpl; congruence. Qed.

Lemma lookup_words_printed (input : Stdio.stream) :
  forall g,
    printed (lookup_words g input)
    = flat_map (fun q => [Prompt; snd (lookup_body g q)]) (answered input)
      ++ [Prompt].
Proof.
  induction input as [|tok input IH]; intros g; simpl; [reflexivity|].
  destruct (Stdio.fits tok); simpl; [|reflexivity].
  destruct (lookup_body_globals g tok) as (Hm & _ & _).
  destruct (lookup_body g tok) as [g' line]; simpl in *.
  rewrite IH. do 2 f_equal. f_equal. apply flat_map_same.
  intros q. f_equal. f_equal. now apply lookup_body_same_map.
Qed.

Lemma lookup_words_rest (input : Stdio.stream) :
  forall g,
    rest (lookup_words g input)
    = skipn (S (List.length (answered input))) input.
Proof.
  induction input as [|tok input IH]; intros g; simpl; [reflexivity|].
  destruct (Stdio.fits tok); simpl; [|reflexivity].
  destruct (lookup_body g tok) as [g' line]; simpl. apply IH.
Qed.

Lemma lookup_words_ended (input : Stdio.stream) :
  forall g,
    ended (lookup_words g input)
    = if forallb Stdio.fits input then Returned else Undefined.
Proof.
  induction input as [|tok input IH]; intros g; simpl; [reflexivity|].
  destruct (Stdio.fits tok); simpl; [|reflexivity].
  destruct (lookup_body g tok) as [g' line]; simpl. apply IH.
Qed.

Lemma answered_all (input : Stdio.stream) :
  forallb Stdio.fits input = true -> answered input = input.
Proof.
  induction input as [|tok input IH]; simpl; [reflexivity|].
  destruct (Stdio.fits tok); simpl; [|discriminate].
  intros H. f_equal. auto.
Qed.

Lemma no_word_line (g : globals) (input : Stdio.stream) (k : string) (c : Z) :
  ~ In (WordLine k c) (printed (lookup_words g input)).
Proof.
  rewrite lookup_words_printed. intros H.
  apply in_app_or in H. destruct H as [H|[H|[]]]; [|discriminate].
  apply in_flat_map in H. destruct H as (q & _ & [H|[H|[]]]);
    [discriminate|].
  rewrite lookup_body_answer in H.
  destruct (WordsMap.find (c_str q) (s_wordsMap g)); discriminate.
Qed.

Lemma occurrences_le (k : string) (l : list string) :
  (occurrences k l <= List.length l)%nat.
Proof.
  unfold occurrences. induction l as [|x l IH]; simpl; [lia|].
  destruct (string_dec x k); lia.
Qed.

Lemma before_end_length (input : Stdio.stream) :
  (List.length (before_end input) <= List.length input)%nat.
Proof.
  induction input as [|x input IH]; simpl; [lia|].
  destruct (is_end (c_str x)); simpl; lia.
Qed.

Lemma before_end_no_end (input : Stdio.stream) : ~ In "end" (before_end input).
Proof.
  intros Hin. pose proof (before_end_not_end input) as Hn.
  rewrite Forall_forall in Hn. apply Hn in Hin. discriminate.
Qed.

(** The entries of a tally, word by word. *)
Lemma tally_entry (l : list string) (k : string) (v : wordCount) :
  In (k, v) (tally l)
  <-> k <> "" /\ k <> "end" /\ In k l
      /\ v = mkWordCount (Int.wrap (Z.of_nat (occurrences k l))).
Proof.
  pose proof (find_tally l k) as Hf. split.
  - intros Hin. apply find_In in Hin; [|apply tally_ordered].
    rewrite Hin in Hf.
    destruct (empty k) eqn:E1; [discriminate|].
    destruct (is_end k) eqn:E2; [discriminate|].
    destruct (occurrences k l =? 0)%nat eqn:E3; [discriminate|].
    simpl in Hf. injection Hf as ->.
    apply empty_false_iff in E1. apply is_end_false_iff in E2.
    apply Nat.eqb_neq in E3. repeat split; auto.
    apply (count_occ_In string_dec). unfold occurrences in E3. lia.
  - intros (H1 & H2 & H3 & ->).
    apply empty_false_iff in H1. apply is_end_false_iff in H2.
    apply (count_occ_In string_dec) in H3.
    rewrite H1, H2 in Hf. simpl in Hf.
    replace (occurrences k l =? 0)%nat with false in Hf
      by (symmetry; apply Nat.eqb_neq; unfold occurrences; lia).
    apply find_key in Hf. apply Hf.
Qed.

End Output.

(** X7. The scheduling does not show in what [main] does.  If [main] gets
    past [read_input_words] under some interleaving of the two threads, it
    does so under the alternating one too, and under every interleaving that
    gets it there it ends with the same globals, the same unread input and the
    same printed lines: those of the rest of [main] run on the tally of the
    words (the tokens read as C strings, up to their first NUL byte) before
    the first one that reads ["end"] and on the input after that token. *)
Theorem main_is_deterministic
  (input : Stdio.stream) (sched : list Ingest.thread) (r : Lookup.result) :
  Lookup.main sched input = Some r ->
  Lookup.main (Ingest.alternate input) input = Some r
  /\ (forall sched' r', Lookup.main sched' input = Some r' -> r' = r)
  /\ r = Lookup.main_tail
           (mkGlobals (Ingest.tally (Ingest.before_end input)) Word_default 0)
           (Ingest.after_end input).
Proof.
  intros Hm. pose proof (main_result _ _ _ Hm) as Hr.
  split.
  { rewrite Hr. apply main_alternate. eapply main_returned. exact Hm. }
  split; [|exact Hr].
  intros sched' r' Hm'. apply main_result in Hm'. congruence.
Qed.

Lemma main_is_deterministic_witness :
  exists r,
    Lookup.main [Ingest.Main; Ingest.Worker; Ingest.Worker; Ingest.Main;
                 Ingest.Main; Ingest.Worker; Ingest.Main; Ingest.Worker;
                 Ingest.Main; Ingest.Worker; Ingest.Main; Ingest.Worker;
                 Ingest.Worker; Ingest.Main; Ingest.Worker; Ingest.Main]
      [Stdio.a_nul_b; "end"; "a"; "p"] = Some r
    /\ Lookup.main (Ingest.alternate [Stdio.a_nul_b; "end"; "a"; "p"])
         [Stdio.a_nul_b; "end"; "a"; "p"] = Some r
    /\ Lookup.printed r
       = [Lookup.WordListHeader; Lookup.WordLine "a" 1;
          Lookup.Prompt; Lookup.Success "a" 1;
          Lookup.Prompt; Lookup.NotFound "p";
          Lookup.Prompt; Lookup.Total 1].
Proof.
  exists_computed. split; [computed|]. split; [|computed].
  apply (main_is_deterministic [Stdio.a_nul_b; "end"; "a"; "p"]
           [Ingest.Main; Ingest.Worker; Ingest.Worker; Ingest.Main;
            Ingest.Main; Ingest.Worker; Ingest.Main; Ingest.Worker;
            Ingest.Main; Ingest.Worker; Ingest.Main; Ingest.Worker;
            Ingest.Worker; Ingest.Main; Ingest.Worker; Ingest.Main]).
  computed.
Defined.

(** X8. The word list that [main] prints.  Under every interleaving that
    gets [main] past [read_input_words], a line "k c" is printed exactly for
    the non-empty words [k] that the input holds before its first ["end"],
    a word being a token read as a C string (its bytes before its first NUL
    byte), and [c] is the number of those occurrences, as an [int]. *)
Theorem word_list_printed
  (input : Stdio.stream) (sched : list Ingest.thread) (r : Lookup.result)
  (k : string) (c : Z) :
  Lookup.main sched input = Some r ->
  In (Lookup.WordLine k c) (Lookup.printed r)
  <-> k <> "" /\ In k (Ingest.before_end input)
      /\ c = Int.wrap
               (Z.of_nat (Ingest.occurrences k (Ingest.before_end input))).
Proof.
  intros Hm. apply main_result in Hm. subst r.
  set (pre := Ingest.before_end input).
  set (g := mkGlobals (Ingest.tally pre) Word_default 0).
  assert (Hlist :
    In (Lookup.WordLine k c)
      (Lookup.WordListHeader
         :: map (fun e => Lookup.WordLine (fst e) (snd e))
              (WordsMap.iterate (s_wordsMap g)))
    <-> In (k, mkWordCount c) (Ingest.tally pre)).
  { simpl. unfold WordsMap.iterate. rewrite map_map. simpl. split.
    - intros [H|H]; [discriminate|].
      apply in_map_iff in H. destruct H as ([k' [c']] & [= -> ->] & Hin).
      exact Hin.
    - intros Hin. right. apply in_map_iff.
      exists (k, mkWordCount c). split; [reflexivity|exact Hin]. }
  assert (Hentry :
    In (k, mkWordCount c) (Ingest.tally pre)
    <-> k <> "" /\ In k pre
        /\ c = Int.wrap (Z.of_nat (Ingest.occurrences k pre))).
  { rewrite tally_entry. split.
    - intros (H1 & _ & H3 & [= ->]). auto.
    - intros (H1 & H3 & ->). repeat split; auto.
      intros ->. apply (before_end_no_end input). exact H3. }
  rewrite <- Hentry, <- Hlist. clear Hentry Hlist.
  unfold Lookup.main_tail.
  destruct (Lookup.ended (Lookup.lookup_words g (Ingest.after_end input)));
    cbn [Lookup.printed]; split.
  - intros H. apply in_app_or in H. destruct H as [H|H]; [exact H|].
    apply in_app_or in H. destruct H as [H|[H|[]]]; [|discriminate].
    exfalso. eapply no_word_line; eassumption.
  - intros H. apply in_or_app. now left.
  - intros H. apply in_app_or in H. destruct H as [H|H]; [exact H|].
    exfalso. eapply no_word_line; eassumption.
  - intros H. apply in_or_app. now left.
Qed.

Lemma word_list_printed_witness :
  exists r,
    Lookup.main (Ingest.alternate [Stdio.a_nul_b; "p"; "a"; "end"; "a"])
      [Stdio.a_nul_b; "p"; "a"; "end"; "a"] = Some r
    /\ Ingest.before_end [Stdio.a_nul_b; "p"; "a"; "end"; "a"]
       = ["a"; "p"; "a"]
    /\ (In (Lookup.WordLine "a" 2) (Lookup.printed r)
        <-> "a" <> ""
            /\ In "a" (Ingest.before_end
                           [Stdio.a_nul_b; "p"; "a"; "end"; "a"])
            /\ 2%Z = Int.wrap
                       (Z.of_nat
                          (Ingest.occurrences "a"
                             (Ingest.before_end
                                [Stdio.a_nul_b; "p"; "a"; "end"; "a"])))).
Proof.
  exists_computed. split; [computed|]. split; [computed|].
  apply (word_list_printed [Stdio.a_nul_b; "p"; "a"; "end"; "a"]
           (Ingest.alternate [Stdio.a_nul_b; "p"; "a"; "end"; "a"])).
  computed.
Defined.

(** X9. What a lookup answers after the ingestion.  When [read_input_words]
    has returned, the loop body of [lookup_words] looks up the query read as a
    C string (its bytes before its first NUL byte): it reports it as found
    exactly when that is a non-empty word of the input before the first
    ["end"] (so never for ["end"] itself), and then with the number of its
    occurrences there as an [int]; for an input of at most [INT_MAX] tokens
    that is the number itself. *)
Theorem lookup_after_ingestion
  (input : Stdio.stream) (sched : list Ingest.thread) (s : Ingest.state)
  (q : string) :
  Ingest.run sched (Ingest.init input) = Some s ->
  Ingest.main_at s = Ingest.MReturned ->
  snd (Lookup.lookup_body (Ingest.G s) q)
  = (if empty (c_str q) || is_end (c_str q)
        || (Ingest.occurrences (c_str q) (Ingest.before_end input) =? 0)%nat
     then Lookup.NotFound (c_str q)
     else Lookup.Success (c_str q)
            (Int.wrap
               (Z.of_nat
                  (Ingest.occurrences (c_str q) (Ingest.before_end input)))))
  /\ ((Z.of_nat (List.length input) <= Int.INT_MAX)%Z ->
      Int.wrap
        (Z.of_nat (Ingest.occurrences (c_str q) (Ingest.before_end input)))
      = Z.of_nat (Ingest.occurrences (c_str q) (Ingest.before_end input))).
Proof.
  intros Hrun Hr. pose proof (reachable_inv _ _ _ Hrun) as Hinv.
  destruct (inv_returned _ _ Hinv Hr) as (_ & _ & _ & _ & _ & HG).
  split.
  - rewrite lookup_body_answer, HG. simpl. rewrite find_tally.
    destruct (empty (c_str q) || is_end (c_str q)
              || (Ingest.occurrences (c_str q) (Ingest.before_end input)
                  =? 0)%nat);
      reflexivity.
  - intros Hb. apply wrap_small.
    pose proof (occurrences_le (c_str q) (Ingest.before_end input)) as H1.
    pose proof (before_end_length input) as H2.
    unfold Int.INT_MIN, Int.INT_MAX in *. lia.
Qed.

Lemma lookup_after_ingestion_witness :
  exists s,
    Ingest.run (Ingest.alternate ["f"; "p"; "f"; "end"; "q"])
      (Ingest.init ["f"; "p"; "f"; "end"; "q"]) = Some s
    /\ Ingest.main_at s = Ingest.MReturned
    /\ snd (Lookup.lookup_body (Ingest.G s)
              (String "f" (String Ascii.zero "z")))
       = Lookup.Success "f" 2
    /\ snd (Lookup.lookup_body (Ingest.G s) "q") = Lookup.NotFound "q".
Proof.
  exists_computed. split; [computed|]. split; [computed|]. split.
  - refine (proj1 (lookup_after_ingestion
                     ["f"; "p"; "f"; "end"; "q"]
                     (Ingest.alternate ["f"; "p"; "f"; "end"; "q"])
                     _ (String "f" (String Ascii.zero "z")) _ _)); computed.
  - computed.
Defined.

(** X10. What a lookup session prints and where it stops.  [lookup_words]
    prints a prompt and an answer for each token up to the first one of 32
    characters or more, each answer being the one the loop body gives against
    the map the session started with, and then one last prompt.  It returns,
    with the whole input read, exactly when every token is shorter than 32
    characters; otherwise the tokens after the long one are left unread. *)
Theorem session_output (g : globals) (input : Stdio.stream) :
  Lookup.printed (Lookup.lookup_words g input)
  = flat_map (fun q => [Lookup.Prompt; snd (Lookup.lookup_body g q)])
      (Lookup.answered input)
    ++ [Lookup.Prompt]
  /\ Lookup.rest (Lookup.lookup_words g input)
     = skipn (S (List.length (Lookup.answered input))) input
  /\ (Lookup.ended (Lookup.lookup_words g input) = Lookup.Returned
      <-> forall t, In t input -> (String.length t < Stdio.LINEBUF_SIZE)%nat)
  /\ (Lookup.ended (Lookup.lookup_words g input) = Lookup.Returned ->
      Lookup.answered input = input
      /\ Lookup.rest (Lookup.lookup_words g input) = []).
Proof.
  split; [apply lookup_words_printed|].
  split; [apply lookup_words_rest|].
  rewrite lookup_words_ended, lookup_words_rest.
  assert (Hall : forallb Stdio.fits input = true
                 <-> forall t, In t input ->
                       (String.length t < Stdio.LINEBUF_SIZE)%nat).
  { rewrite forallb_forall. split; intros H t Ht; apply fits_iff; auto. }
  split.
  - rewrite <- Hall. destruct (forallb Stdio.fits input);
      split; congruence.
  - destruct (forallb Stdio.fits input) eqn:E; [|discriminate].
    intros _. rewrite (answered_all _ E). split; [reflexivity|].
    apply skipn_all2. lia.
Qed.

(** * No run gets stuck *)

Section Progress.

Import Ingest.

Lemma worker_frame (s s' : state) :
  step Worker s = Some s' -> stdin s' = stdin s /\ main_at s' = main_at s.
Proof.
  destruct s as [g inp at_ buf e wat w_ we ps ts]; simpl.
  unfold worker_thread. destruct (running _); [|discriminate].
  destruct wat; try discriminate.
  - intros [= <-]. auto.
  - destruct (worker_thread_body (s_wordsMap g) w_ we) as [m' we'].
    intros [= <-]. auto.
Qed.

Lemma workers_frame (n : nat) :
  forall s s',
    run (repeat Worker n) s = Some s' ->
    stdin s' = stdin s /\ main_at s' = main_at s.
Proof.
  induction n as [|n IH]; simpl; intros s s' H.
  - injection H as <-. auto.
  - change (worker_thread s) with (step Worker s) in H.
    destruct (step Worker s) as [s1|] eqn:E; [|discriminate].
    apply worker_frame in E. apply IH in H. destruct E, H. split; congruence.
Qed.

(** Where a step of the main thread leads. *)
Lemma main_step (s s' : state) :
  step Main s = Some s' ->
  match main_at s with
  | MSpawn => main_at s' = MScan /\ stdin s' = stdin s
  | MScan =>
      finished s' = true
      \/ main_at s' = MPut
         /\ (List.length (stdin s') < List.length (stdin s))%nat
  | MPut => main_at s' = MWait /\ stdin s' = stdin s
  | MWait =>
      (main_at s' = MScan \/ main_at s' = MJoin) /\ stdin s' = stdin s
  | MJoin => main_at s' = MReturned
  | MReturned | MTerminate | MUndefined => False
  end.
Proof.
  destruct s as [g inp at_ buf e wat w_ we ps ts]; simpl.
  destruct at_; try discriminate.
  - intros [= <-]. auto.
  - destruct (scanf_cases inp)
      as [(-> & E)|[(tok & inp' & -> & Hf & E)|(tok & inp' & -> & Hf & E)]];
      rewrite E; intros [= <-]; simpl; auto.
  - intros [= <-]. auto.
  - destruct (empty (data (s_word g))); [|discriminate].
    intros [= <-]. simpl. destruct e; auto.
  - destruct wat; try discriminate. intros [= <-]. reflexivity.
Qed.

(** The main thread can always spawn, scan and put. *)
Lemma main_moves (s : state) :
  main_at s = MSpawn \/ main_at s = MScan \/ main_at s = MPut ->
  exists s', step Main s = Some s'.
Proof.
  destruct s as [g inp at_ buf e wat w_ we ps ts]; simpl.
  intros [->|[->| ->]]; [eauto| |eauto].
  destruct (Stdio.scanf inp) as [[| |] inp']; eauto.
Qed.

Variable input : Stdio.stream.

Lemma finishes_step (t : thread) (s s1 : state) :
  step t s = Some s1 -> finishes s1 -> finishes s.
Proof.
  intros Hs (more & s' & Hr & Hf). exists (t :: more), s'.
  split; [|exact Hf]. simpl. now rewrite Hs.
Qed.

Lemma finishes_run (sched : list thread) (s s1 : state) :
  run sched s = Some s1 -> finishes s1 -> finishes s.
Proof.
  intros Hs (more & s' & Hr & Hf). exists (sched ++ more), s'.
  split; [|exact Hf]. now rewrite run_app, Hs.
Qed.

Lemma finishes_join (s : state) :
  inv input s -> main_at s = MJoin -> finishes s.
Proof.
  intros Hinv Hat.
  destruct (inv_main_unblocked _ _ Hinv (or_intror Hat))
    as (n & s1 & s2 & _ & Hw & Hm).
  apply (finishes_run _ _ _ Hw). apply (finishes_step _ _ _ Hm).
  destruct (workers_frame _ _ _ Hw) as [_ Hat1]. rewrite Hat in Hat1.
  apply main_step in Hm. rewrite Hat1 in Hm.
  exists [], s2. split; [reflexivity|]. unfold finished. now rewrite Hm.
Qed.

Lemma finishes_scan (n : nat) :
  forall s,
    (List.length (stdin s) <= n)%nat ->
    inv input s -> main_at s = MScan -> finishes s.
Proof.
  induction n as [|n IH]; intros s Hlen Hinv Hat.
  - (* no input left: the scan is the last step *)
    destruct (main_moves s) as [s1 H1]; [tauto|].
    apply (finishes_step _ _ _ H1).
    pose proof (main_step _ _ H1) as Hc. rewrite Hat in Hc.
    destruct Hc as [Hf|[_ Hl]]; [|exfalso; lia].
    exists [], s1. auto.
  - destruct (main_moves s) as [s1 H1]; [tauto|].
    apply (finishes_step _ _ _ H1).
    pose proof (inv_step _ _ _ _ Hinv H1) as Hinv1.
    pose proof (main_step _ _ H1) as Hc. rewrite Hat in Hc.
    destruct Hc as [Hf|[Hat1 Hl]]; [exists [], s1; auto|].
    (* the put *)
    destruct (main_moves s1) as [s2 H2]; [tauto|].
    apply (finishes_step _ _ _ H2).
    pose proof (inv_step _ _ _ _ Hinv1 H2) as Hinv2.
    pose proof (main_step _ _ H2) as Hc. rewrite Hat1 in Hc.
    destruct Hc as [Hat2 Hin2].
    (* the wait *)
    destruct (inv_main_unblocked _ _ Hinv2 (or_introl Hat2))
      as (k & s3 & s4 & _ & Hw & Hm).
    apply (finishes_run _ _ _ Hw). apply (finishes_step _ _ _ Hm).
    pose proof (inv_run _ _ _ _ Hinv2 Hw) as Hinv3.
    pose proof (inv_step _ _ _ _ Hinv3 Hm) as Hinv4.
    destruct (workers_frame _ _ _ Hw) as [Hin3 Hat3]. rewrite Hat2 in Hat3.
    pose proof (main_step _ _ Hm) as Hc. rewrite Hat3 in Hc.
    destruct Hc as [[Hat4|Hat4] Hin4].
    + apply IH; [|assumption|assumption]. rewrite Hin4, Hin3, Hin2. lia.
    + now apply finishes_join.
Qed.

Lemma finishes_always (s : state) : inv input s -> finishes s.
Proof.
  intros Hinv. destruct (main_at s) eqn:Hat.
  - destruct (main_moves s) as [s1 H1]; [tauto|].
    apply (finishes_step _ _ _ H1).
    pose proof (main_step _ _ H1) as Hc. rewrite Hat in Hc.
    apply (finishes_scan (List.length (stdin s1))); [lia| |apply Hc].
    eapply inv_step; eassumption.
  - now apply (finishes_scan (List.length (stdin s))).
  - destruct (main_moves s) as [s1 H1]; [tauto|].
    apply (finishes_step _ _ _ H1).
    pose proof (inv_step _ _ _ _ Hinv H1) as Hinv1.
    pose proof (main_step _ _ H1) as Hc. rewrite Hat in Hc.
    destruct Hc as [Hat1 _].
    destruct (inv_main_unblocked _ _ Hinv1 (or_introl Hat1))
      as (k & s2 & s3 & _ & Hw & Hm).
    apply (finishes_run _ _ _ Hw). apply (finishes_step _ _ _ Hm).
    pose proof (inv_run _ _ _ _ Hinv1 Hw) as Hinv2.
    pose proof (inv_step _ _ _ _ Hinv2 Hm) as Hinv3.
    destruct (workers_frame _ _ _ Hw) as [_ Hat2]. rewrite Hat1 in Hat2.
    pose proof (main_step _ _ Hm) as Hc. rewrite Hat2 in Hc.
    destruct Hc as [[Hat3|Hat3] _].
    + now apply (finishes_scan (List.length (stdin s3))).
    + now apply finishes_join.
  - destruct (inv_main_unblocked _ _ Hinv (or_introl Hat))
      as (k & s2 & s3 & _ & Hw & Hm).
    apply (finishes_run _ _ _ Hw). apply (finishes_step _ _ _ Hm).
    pose proof (inv_run _ _ _ _ Hinv Hw) as Hinv2.
    pose proof (inv_step _ _ _ _ Hinv2 Hm) as Hinv3.
    destruct (workers_frame _ _ _ Hw) as [_ Hat2]. rewrite Hat in Hat2.
    pose proof (main_step _ _ Hm) as Hc. rewrite Hat2 in Hc.
    destruct Hc as [[Hat3|Hat3] _].
    + now apply (finishes_scan (List.length (stdin s3))).
    + now apply finishes_join.
  - now apply finishes_join.
  - exists [], s. split; [reflexivity|]. unfold finished. now rewrite Hat.
  - exists [], s. split; [reflexivity|]. unfold finished. now rewrite Hat.
  - exists [], s. split; [reflexivity|]. unfold finished. now rewrite Hat.
Qed.

End Progress.

(** X11. No interleaving gets the ingestion stuck.  From every state that
    the two threads can reach, some continuation of the run brings
    [read_input_words] to its end, and to the end that the input decides:
    the return after the join when the input holds a token that fits and
    reads ["end"] as a C string (its bytes before its first NUL byte), behind
    tokens that fit, otherwise the [return] at EOF or the overrun. *)
Theorem always_can_finish
  (input : Stdio.stream) (sched : list Ingest.thread) (s : Ingest.state) :
  Ingest.run sched (Ingest.init input) = Some s ->
  exists more s',
    Ingest.run more s = Some s'
    /\ Ingest.finished s' = true
    /\ Ingest.main_at s' = Ingest.outcome input.
Proof.
  intros Hrun. pose proof (reachable_inv _ _ _ Hrun) as Hinv.
  destruct (finishes_always input s Hinv) as (more & s' & Hmore & Hf).
  exists more, s'. split; [exact Hmore|]. split; [exact Hf|].
  assert (Hall : Ingest.run (sched ++ more) (Ingest.init input) = Some s').
  { now rewrite run_app, Hrun. }
  exact (run_outcome _ _ _ Hall Hf).
Qed.

Lemma always_can_finish_witness :
  exists s,
    Ingest.run [Ingest.Main; Ingest.Worker; Ingest.Main; Ingest.Main]
      (Ingest.init ["p"; "end"]) = Some s
    /\ exists more s',
         Ingest.run more s = Some s'
         /\ Ingest.finished s' = true
         /\ Ingest.main_at s' = Ingest.outcome ["p"; "end"].
Proof.
  exists_computed. split; [computed|].
  apply (always_can_finish ["p"; "end"]
           [Ingest.Main; Ingest.Worker; Ingest.Main; Ingest.Main]).
  computed.
Defined.

(** * Snapshots of the map *)

Section Snapshots.

Import Ingest.

Lemma filter_prefix {A : Type} (f : A -> bool) (l : list A) :
  forall p rest,
    filter f l = p ++ rest -> exists n, p = filter f (firstn n l).
Proof.
  induction l as [|x l IH]; simpl; intros p rest H.
  - exists 0%nat. destruct p; [reflexivity|discriminate].
  - destruct (f x) eqn:Ex.
    + destruct p as [|y p]; [exists 0%nat; reflexivity|].
      simpl in H. injection H as <- H.
      destruct (IH _ _ H) as [n ->]. exists (S n). simpl. now rewrite Ex.
    + destruct (IH _ _ H) as [n ->]. exists (S n). simpl. now rewrite Ex.
Qed.

(** The map is the tally of values whose tokens begin the tokens of the
    input. *)
Lemma inv_map_prefix (input : Stdio.stream) (s : state) :
  inv input s ->
  exists ts later,
    s_wordsMap (G s) = tally ts
    /\ tokens (words input) = tokens ts ++ later.
Proof.
  intros Hinv. destruct (inv_puts_words _ _ Hinv) as [rest Hrest].
  destruct Hinv as [Hh Hm Hw _]. unfold at_worker, at_main in *.
  assert (Hin : tokens (words input)
                = tokens (takes s) ++ pending s ++ tokens rest).
  { rewrite Hrest, tokens_app, Hh, <- app_assoc. reflexivity. }
  destruct (worker_at s).
  - destruct Hm as (read & _ & Hm). rewrite Hw in Hm. subst s.
    exists [], (tokens (words input)). auto.
  - destruct Hw as (_ & Hmap & _). eauto.
  - destruct Hw as (_ & ts & Hts & _ & Hmap). exists ts.
    rewrite Hts, tokens_app, <- app_assoc in Hin. eauto.
  - destruct Hw as (ts & Hts & _ & Hmap). exists ts.
    rewrite Hts, tokens_app, <- app_assoc in Hin. eauto.
Qed.

Lemma subscript_keys_incl k f m x :
  In x (WordsMap.keys m) -> In x (WordsMap.keys (WordsMap.subscript k f m)).
Proof.
  induction m as [|[k' v] m IH]; simpl; [tauto|].
  destruct (String.compare k k'); simpl; tauto.
Qed.

Lemma count_token_keys_incl m x k :
  In k (WordsMap.keys m) -> In k (WordsMap.keys (count_token m x)).
Proof.
  intros H. destruct (count_token_cases m x) as [[_ ->]|(_ & _ & ->)];
    [assumption|]. now apply subscript_keys_incl.
Qed.

Lemma count_token_other m x k :
  k <> x -> WordsMap.find k (count_token m x) = WordsMap.find k m.
Proof.
  intros H. destruct (count_token_cases m x) as [[_ ->]|(_ & _ & ->)];
    [reflexivity|]. now apply find_subscript_other.
Qed.

End Snapshots.

(** X12. The map never runs ahead of the input and never skips a word.  In
    every state of every run, [s_wordsMap] is what the worker's loop body
    makes of the first [n] words of the input, in their order, for some
    [n], a word being a token read as a C string (its bytes before its first
    NUL byte): a snapshot of the map always counts an initial segment of the
    input. *)
Theorem table_counts_a_prefix
  (input : Stdio.stream) (sched : list Ingest.thread) (s : Ingest.state) :
  Ingest.run sched (Ingest.init input) = Some s ->
  exists n,
    (n <= List.length input)%nat
    /\ s_wordsMap (Ingest.G s)
       = Ingest.tally (firstn n (Ingest.words input)).
Proof.
  intros Hrun. pose proof (reachable_inv _ _ _ Hrun) as Hinv.
  destruct (inv_map_prefix _ _ Hinv) as (ts & later & Hmap & Hin).
  destruct (filter_prefix _ _ _ _ Hin) as [n Hn].
  exists (Nat.min n (List.length input)). split; [lia|].
  rewrite Hmap, <- (tally_tokens ts).
  fold (Ingest.tokens (firstn n (Ingest.words input))) in Hn.
  rewrite Hn, tally_tokens.
  f_equal. destruct (Nat.le_ge_cases n (List.length input)) as [H|H].
  - now rewrite Nat.min_l.
  - rewrite Nat.min_r by assumption.
    rewrite !firstn_all2; [reflexivity| |];
      rewrite words_length; lia.
Qed.

Lemma table_counts_a_prefix_witness :
  exists s,
    Ingest.run [Ingest.Main; Ingest.Main; Ingest.Main; Ingest.Worker;
                Ingest.Worker; Ingest.Main; Ingest.Main; Ingest.Main;
                Ingest.Worker; Ingest.Worker]
      (Ingest.init [Stdio.a_nul_b; "a"; "p"; "end"]) = Some s
    /\ s_wordsMap (Ingest.G s) = [("a", mkWordCount 2)]
    /\ exists n,
         (n <= List.length [Stdio.a_nul_b; "a"; "p"; "end"])%nat
         /\ s_wordsMap (Ingest.G s)
            = Ingest.tally
                (firstn n (Ingest.words [Stdio.a_nul_b; "a"; "p"; "end"])).
Proof.
  exists_computed. split; [computed|]. split; [computed|].
  apply (table_counts_a_prefix [Stdio.a_nul_b; "a"; "p"; "end"]
           [Ingest.Main; Ingest.Main; Ingest.Main; Ingest.Worker;
            Ingest.Worker; Ingest.Main; Ingest.Main; Ingest.Main;
            Ingest.Worker; Ingest.Worker]).
  computed.
Defined.

(** X13. Nothing is ever taken out of the map.  A step of either thread,
    from any state, keeps every key of [s_wordsMap], and leaves the entry of
    every word other than the one in the worker's [w] as it was; the steps
    of [read_input_words] do not touch the map at all. *)
Theorem words_are_never_removed
  (t : Ingest.thread) (s s' : Ingest.state) (k : string) :
  Ingest.step t s = Some s' ->
  (In k (WordsMap.keys (s_wordsMap (Ingest.G s))) ->
   In k (WordsMap.keys (s_wordsMap (Ingest.G s'))))
  /\ (k <> data (Ingest.w s) ->
      WordsMap.find k (s_wordsMap (Ingest.G s'))
      = WordsMap.find k (s_wordsMap (Ingest.G s)))
  /\ (t = Ingest.Main ->
      s_wordsMap (Ingest.G s') = s_wordsMap (Ingest.G s)).
Proof.
  destruct s as [[m wd tf] inp at_ buf e wat w_ we ps ts].
  destruct t; simpl.
  - assert (H : forall s1,
               Ingest.read_input_words
                 (Ingest.mkState (mkGlobals m wd tf) inp at_ buf e wat w_ we
                    ps ts) = Some s1 ->
               s_wordsMap (Ingest.G s1) = m).
    { intros s1. simpl. destruct at_; try discriminate.
      - intros [= <-]. reflexivity.
      - destruct (Stdio.scanf inp) as [[| |] inp']; intros [= <-];
          reflexivity.
      - intros [= <-]. reflexivity.
      - destruct (empty (data wd)); [|discriminate].
        intros [= <-]. reflexivity.
      - destruct wat; try discriminate. intros [= <-]. reflexivity. }
    intros Hs. apply H in Hs. rewrite Hs. auto.
  - unfold Ingest.worker_thread. destruct (Ingest.running _); [|discriminate].
    destruct wat; try discriminate.
    + intros [= <-]. simpl. repeat split; auto.
    + destruct w_ as [x]. cbn -[Ingest.worker_thread_body].
      pose proof (worker_thread_body_map m x we) as Hb.
      destruct (Ingest.worker_thread_body m (mkWord x) we) as [m' we'].
      simpl in Hb. subst m'. intros [= <-]. simpl. split; [|split].
      * apply count_token_keys_incl.
      * apply count_token_other.
      * discriminate.
Qed.

Lemma words_are_never_removed_witness :
  exists s,
    Ingest.run [Ingest.Main; Ingest.Main; Ingest.Main; Ingest.Worker;
                Ingest.Worker; Ingest.Main; Ingest.Main; Ingest.Main;
                Ingest.Worker]
      (Ingest.init ["f"; "p"; "end"]) = Some s
    /\ exists s',
         Ingest.step Ingest.Worker s = Some s'
         /\ (In "f" (WordsMap.keys (s_wordsMap (Ingest.G s))) ->
             In "f" (WordsMap.keys (s_wordsMap (Ingest.G s'))))
         /\ ("f" <> data (Ingest.w s) ->
             WordsMap.find "f" (s_wordsMap (Ingest.G s'))
             = WordsMap.find "f" (s_wordsMap (Ingest.G s)))
         /\ (Ingest.Worker = Ingest.Main ->
             s_wordsMap (Ingest.G s') = s_wordsMap (Ingest.G s)).
Proof.
  exists_computed. split; [computed|].
  exists_computed. split; [computed|].
  apply (words_are_never_removed Ingest.Worker). computed.
Defined.

(** * The printed total *)

Section Totals.

Import Ingest Lookup.

Lemma successes_app (a b : list output) :
  successes (a ++ b) = (successes a + successes b)%nat.
Proof. unfold successes. now rewrite filter_app, length_app. Qed.

Lemma successes_listing (l : list (string * Z)) :
  successes (WordListHeader :: map (fun e => WordLine (fst e) (snd e)) l) = 0%nat.
Proof.
  unfold successes. simpl. induction l as [|e l IH]; simpl; auto.
Qed.

Lemma successes_session (g : globals) (queries : list string) :
  successes
    (flat_map (fun q => [Prompt; snd (lookup_body g q)]) queries ++ [Prompt])
  = hits (s_wordsMap g) (words queries).
Proof.
  rewrite successes_app. unfold successes at 2. simpl. rewrite Nat.add_0_r.
  unfold successes, hits. induction queries as [|q queries IH]; simpl;
    [reflexivity|].
  rewrite lookup_body_answer. unfold hit.
  destruct (WordsMap.find (c_str q) (s_wordsMap g)); simpl; now rewrite IH.
Qed.

Lemma no_total_in_listing (l : list (string * Z)) (n : Z) :
  ~ In (Total n)
      (WordListHeader :: map (fun e => WordLine (fst e) (snd e)) l).
Proof.
  intros [H|H]; [discriminate|].
  apply in_map_iff in H. destruct H as (e & H & _). discriminate.
Qed.

Lemma no_total_in_session (g : globals) (input : Stdio.stream) (n : Z) :
  ~ In (Total n) (printed (lookup_words g input)).
Proof.
  rewrite lookup_words_printed. intros H.
  apply in_app_or in H. destruct H as [H|[H|[]]]; [|discriminate].
  apply in_flat_map in H. destruct H as (q & _ & [H|[H|[]]]);
    [discriminate|].
  rewrite lookup_body_answer in H.
  destruct (WordsMap.find (c_str q) (s_wordsMap g)); discriminate.
Qed.

Lemma after_end_length (input : Stdio.stream) :
  (List.length (after_end input) <= List.length input)%nat.
Proof.
  induction input as [|x input IH]; simpl; [lia|].
  destruct (is_end (c_str x)); simpl; lia.
Qed.

End Totals.

(** X14. The total that [main] prints is the number of the hits it
    reported.  Under every interleaving that gets [main] past
    [read_input_words], for an input of at most [INT_MAX] tokens, a line
    "Total words found: n" is printed exactly when [lookup_words] returned,
    and then [n] is the number of SUCCESS lines printed before it. *)
Theorem total_is_successes
  (input : Stdio.stream) (sched : list Ingest.thread) (r : Lookup.result)
  (n : Z) :
  Lookup.main sched input = Some r ->
  (Z.of_nat (List.length input) <= Int.INT_MAX)%Z ->
  In (Lookup.Total n) (Lookup.printed r)
  <-> Lookup.ended r = Lookup.Returned
      /\ n = Z.of_nat (Lookup.successes (Lookup.printed r)).
Proof.
  intros Hm Hb. apply main_result in Hm. subst r.
  set (g := mkGlobals (Ingest.tally (Ingest.before_end input)) Word_default 0).
  set (inp := Ingest.after_end input).
  pose proof (after_end_length input) as Hlen. fold inp in Hlen.
  assert (Htot : s_totalFound (Lookup.after (Lookup.lookup_words g inp))
                 = Z.of_nat (Lookup.hits (s_wordsMap g)
                               (Ingest.words (Lookup.answered inp)))).
  { rewrite lookup_words_total; simpl; unfold Int.INT_MIN, Int.INT_MAX in *;
      lia. }
  assert (Hsucc : forall tail,
             Lookup.successes tail = 0%nat ->
             Z.of_nat
               (Lookup.successes
                  ((Lookup.WordListHeader
                      :: map (fun e => Lookup.WordLine (fst e) (snd e))
                           (WordsMap.iterate (s_wordsMap g)))
                   ++ Lookup.printed (Lookup.lookup_words g inp) ++ tail))
             = s_totalFound (Lookup.after (Lookup.lookup_words g inp))).
  { intros tail Htail.
    rewrite !successes_app, successes_listing, lookup_words_printed,
      successes_session, Htail, Htot. f_equal. lia. }
  unfold Lookup.main_tail.
  destruct (Lookup.ended (Lookup.lookup_words g inp)) eqn:E;
    cbn [Lookup.printed Lookup.ended].
  - rewrite (Hsucc [Lookup.Total
                      (s_totalFound
                         (Lookup.after (Lookup.lookup_words g inp)))]
               eq_refl).
    split.
    + intros H. apply in_app_or in H. destruct H as [H|H].
      { exfalso. eapply no_total_in_listing; eassumption. }
      apply in_app_or in H. destruct H as [H|[H|[]]].
      { exfalso. eapply no_total_in_session; eassumption. }
      injection H as <-. split; reflexivity.
    + intros [_ ->]. apply in_or_app. right. apply in_or_app. right.
      now left.
  - split; [|intros [H _]; discriminate].
    intros H. exfalso. apply in_app_or in H. destruct H as [H|H].
    + eapply no_total_in_listing; eassumption.
    + eapply no_total_in_session; eassumption.
Qed.

Lemma total_is_successes_witness :
  exists r,
    Lookup.main (Ingest.alternate ["f"; "f"; "end"; "f"; "p"; "f"])
      ["f"; "f"; "end"; "f"; "p"; "f"] = Some r
    /\ (Z.of_nat (List.length ["f"; "f"; "end"; "f"; "p"; "f"])
        <= Int.INT_MAX)%Z
    /\ (In (Lookup.Total 2) (Lookup.printed r)
        <-> Lookup.ended r = Lookup.Returned
            /\ 2%Z = Z.of_nat (Lookup.successes (Lookup.printed r))).
Proof.
  assert (Hb : (Z.of_nat
                  (List.length ["f"; "f"; "end"; "f"; "p"; "f"])
                <= Int.INT_MAX)%Z) by (vm_compute; discriminate).
  exists_computed. split; [computed|]. split; [exact Hb|].
  refine (total_is_successes ["f"; "f"; "end"; "f"; "p"; "f"]
            (Ingest.alternate ["f"; "f"; "end"; "f"; "p"; "f"])
            _ 2%Z _ Hb).
  computed.
Defined.
